(** * Arc-Explorer: the search query evaluator

    A shallow embedding of [src/search/query_evaluator.py]
    (class [SearchQueryEvaluator]) and the properties of its
    specification.

    Modelling conventions.
    - A Python [str] is a Rocq [string], one [ascii] per character.
    - A Python [set] of strings is a [gset string].
    - The three SQL statements the class sends to SQLite are kept as
      values of type [Query]; [rows] gives them SQLite's meaning over
      the three tables the statements name.
    - Every method that opens a connection runs in the monad [M]: it
      threads a [World] holding how the coming store accesses will go
      (they may raise [sqlite3.Error]), the accesses made so far and
      what was printed, and it may raise a Python exception.
    - The contents of the database do not change while one query is
      evaluated. *)

From Stdlib Require Import ZArith Ascii String List Bool Lia.
From stdpp Require Import base decidable option list gmap sets strings.

(* stdpp's solvers clear hypotheses that are sometimes absent. *)
Local Set Warnings "-clear-no-such-hyp".

Local Open Scope string_scope.
Local Open Scope list_scope.
Local Open Scope nat_scope.
Local Open Scope stdpp_scope.

(** ** SQLite's text functions *)

Module Sqlite.

(** [sqlite3Tolower]: only the 26 letters A-Z are folded; every other
    character, accented letters included, is left alone. *)
Definition tolower (c : ascii) : ascii :=
  let n := N_of_ascii c in
  if ((65 <=? n) && (n <=? 90))%N then ascii_of_N (n + 32) else c.

(** SQL [lower(X)]. *)
Fixpoint lower (s : string) : string :=
  match s with
  | EmptyString => EmptyString
  | String c s' => String (tolower c) (lower s')
  end.

(** SQL [X LIKE P] with SQLite's defaults: [%] stands for any run of
    characters, [_] for exactly one, any other character for itself up
    to [tolower]; there is no escape character. The pattern is the
    first argument. *)
Fixpoint like (pat : string) : string → bool :=
  match pat with
  | EmptyString => λ s, match s with EmptyString => true | String _ _ => false end
  | String c pat' =>
      if Ascii.eqb c "%" then
        fix any_run (s : string) : bool :=
          like pat' s
          || match s with EmptyString => false | String _ s' => any_run s' end
      else if Ascii.eqb c "_" then
        λ s, match s with EmptyString => false | String _ s' => like pat' s' end
      else
        λ s, match s with
             | EmptyString => false
             | String x s' => Ascii.eqb (tolower c) (tolower x) && like pat' s'
             end
  end.

End Sqlite.

Arguments Sqlite.tolower : simpl never.

(** ** The tables *)

(** Modelled from the spec: the schema is declared in
    [database/db_manager.py], which is not under src/. The record
    fields are the columns the three statements of the evaluator name:
    [images(id, path)], [tags(id, name)] and
    [image_tags(image_id, tag_id)]. *)
Record images_row := { images_id : string; images_path : string }.
Record tags_row := { tags_id : Z; tags_name : string }.
Record image_tags_row := { it_image_id : string; it_tag_id : Z }.

Record Database := {
  images : list images_row;
  tags : list tags_row;
  image_tags : list image_tags_row
}.

(** ** The statements *)

(** A statement together with its bound parameters ([final_params] in
    the source): the tag or the ids first, then one LIKE pattern per
    selected directory. *)
Inductive Query :=
| SelectByTag (tag : string) (dir_params : list string)
| SelectAll (params : list string)
| SelectFiltered (image_ids : list string) (params : list string).

(** [path LIKE ? OR path LIKE ? OR ...] *)
Definition dir_where_clause (params : list string) (path : string) : bool :=
  existsb (λ p, Sqlite.like p path) params.

(** [SELECT it.image_id FROM image_tags it JOIN tags t ON it.tag_id = t.id
     JOIN images i ON it.image_id = i.id
     WHERE lower(t.name) = lower(?) AND (i.path LIKE ? OR ...)] *)
Definition select_by_tag (d : Database) (tag : string) (dir_params : list string)
  : list string :=
  it ← image_tags d;
  t ← tags d;
  i ← images d;
  if bool_decide (it_tag_id it = tags_id t)
     && bool_decide (it_image_id it = images_id i)
     && bool_decide (Sqlite.lower (tags_name t) = Sqlite.lower tag)
     && dir_where_clause dir_params (images_path i)
  then [it_image_id it] else [].

(** [SELECT id FROM images WHERE path LIKE ? OR ...] *)
Definition select_all (d : Database) (params : list string) : list string :=
  images_id <$> filter (λ i, dir_where_clause params (images_path i) = true) (images d).

(** [SELECT id FROM images WHERE id IN (?,...) AND (path LIKE ? OR ...)] *)
Definition select_filtered (d : Database) (image_ids params : list string)
  : list string :=
  images_id <$>
    filter (λ i, images_id i ∈ image_ids
                 ∧ dir_where_clause params (images_path i) = true) (images d).

(** [cursor.fetchall()], one id per row. *)
Definition rows (d : Database) (q : Query) : list string :=
  match q with
  | SelectByTag tag dir_params => select_by_tag d tag dir_params
  | SelectAll params => select_all d params
  | SelectFiltered image_ids params => select_filtered d image_ids params
  end.

(** ** Exceptions, the store's behaviour and the monad *)

(** The one Python exception [evaluate] raises itself. *)
Inductive exn := ValueError (msg : string).

Inductive result (A : Type) :=
| Returned (a : A)
| Raised (e : exn).
Arguments Returned {A} a.
Arguments Raised {A} e.

(** How one access to the store goes: it answers, or [sqlite3.Error]
    is raised somewhere between [connect] and [fetchall], with the
    text [e] of the error. *)
Inductive outcome :=
| Answers
| Fails (e : string).

(** [pending]: the outcomes of the coming accesses, first one first; an
    access beyond the list answers. [issued]: the accesses made so far,
    each named by the SELECT its lookup is for. One access is one
    [with sqlite3.connect(...)] block of a lookup: the
    [PRAGMA query_only = ON] every such block starts with is not listed
    apart, and an access that raises before its SELECT is sent is
    listed all the same. [stdout]: the lines printed so far. *)
Record World := {
  pending : list outcome;
  issued : list Query;
  stdout : list string
}.

Definition M (A : Type) : Type := World → result A * World.

#[global] Instance M_ret : MRet M := λ A a w, (Returned a, w).

#[global] Instance M_bind : MBind M := λ A B f m w,
  match m w with
  | (Returned a, w') => f a w'
  | (Raised e, w') => (Raised e, w')
  end.

Definition raise {A} (e : exn) : M A := λ w, (Raised e, w).

Definition print (line : string) : M unit := λ w,
  (Returned tt,
   {| pending := pending w; issued := issued w; stdout := stdout w ++ [line] |}).

(** What a [try] block around one access ends with. *)
Inductive fetched :=
| Rows (ids : list string)
| SqliteError (e : string).

(** The outcome of the next access. *)
Definition next_outcome (w : World) : outcome :=
  match pending w with
  | o :: _ => o
  | [] => Answers
  end.

(** The world once the access for the SELECT [q] has been made. *)
Definition after_access (q : Query) (w : World) : World :=
  {| pending := tail (pending w); issued := issued w ++ [q]; stdout := stdout w |}.

(** One access to the store, for the SELECT [q]: the access is
    recorded, the next outcome is consumed. The block connects, sets
    [PRAGMA query_only = ON], sends [q] and fetches its rows; [Fails]
    stands for [sqlite3.Error] raised anywhere in the block, at
    [connect] included. *)
Definition execute (d : Database) (q : Query) : M fetched := λ w,
  match next_outcome w with
  | Answers => (Returned (Rows (rows d q)), after_access q w)
  | Fails e => (Returned (SqliteError e), after_access q w)
  end.

(** A world whose store answers every access. *)
Definition healthy (w : World) : Prop := Forall (λ o, o = Answers) (pending w).

(** ** The AST *)

(** Modelled from the spec: the node classes are declared in
    [search/query_parser.py], which is not under src/. The six classes
    and their fields are those [evaluate] reads ([node.tag],
    [node.left], [node.right], [node.node], [node.expression]);
    [UnknownNode] stands for an object of any other class, with the
    text of its [type(node)]. *)
Inductive ASTNode :=
| TagNode (tag : string)
| AllImagesNode
| AndNode (left right : ASTNode)
| OrNode (left right : ASTNode)
| NotNode (node : ASTNode)
| BracketNode (expression : ASTNode)
| UnknownNode (type_repr : string).

(** A tree built from the six classes only. *)
Fixpoint six_variants (node : ASTNode) : bool :=
  match node with
  | TagNode _ | AllImagesNode => true
  | AndNode l r | OrNode l r => six_variants l && six_variants r
  | NotNode n | BracketNode n => six_variants n
  | UnknownNode _ => false
  end.

(** ** The evaluator *)

Record SearchQueryEvaluator := {
  db : Database;
  selected_directories : gset string
}.

(** [__init__]. Modelled from the spec: [normalize_path] lives in
    [utils/path_utils.py], which is not under src/; it is a parameter.
    The caller's directories come as any iterable, here a list. *)
Definition init (normalize_path : string → string) (d : Database)
    (dirs : list string) : SearchQueryEvaluator :=
  {| db := d; selected_directories := list_to_set (normalize_path <$> dirs) |}.

(** [s.endswith('/')] *)
Fixpoint endswith_slash (s : string) : bool :=
  match s with
  | EmptyString => false
  | String c EmptyString => Ascii.eqb c "/"
  | String _ s' => endswith_slash s'
  end.

(** The body of the [for norm_dir in self.selected_directories] loops:
    [if not norm_dir.endswith('/'): norm_dir += '/'], then the
    parameter [f"{norm_dir}%"]. *)
Definition with_separator (norm_dir : string) : string :=
  if endswith_slash norm_dir then norm_dir else norm_dir +:+ "/".

Definition dir_param (norm_dir : string) : string := with_separator norm_dir +:+ "%".

Definition dir_params (dirs : gset string) : list string :=
  dir_param <$> elements dirs.

Section Methods.
Variable self : SearchQueryEvaluator.

(** The statements and their parameters, as the three lookups build
    them. *)
Definition by_tag_query (tag : string) : Query :=
  SelectByTag tag (dir_params (selected_directories self)).
Definition all_query : Query :=
  SelectAll (dir_params (selected_directories self)).
Definition filter_query (image_ids : gset string) : Query :=
  SelectFiltered (elements image_ids) (dir_params (selected_directories self)).

(** The lines printed when an access fails. *)
Definition by_tag_report (tag e : string) : string :=
  "Database error getting images by tag '" +:+ tag +:+ "' within scope: " +:+ e.
Definition all_report (e : string) : string :=
  "Database error getting all image IDs in scope: " +:+ e.
Definition filter_report (e : string) : string :=
  "Database error filtering by directory scope: " +:+ e.

Definition get_image_ids_by_tag (tag : string) : M (gset string) :=
  if decide (selected_directories self = ∅) then mret ∅
  else
    r ← execute (db self) (by_tag_query tag);
    match r with
    | Rows ids => mret (list_to_set ids)
    | SqliteError e =>
        print (by_tag_report tag e);;
        mret ∅
    end.

Definition get_all_image_ids_in_scope : M (gset string) :=
  if decide (selected_directories self = ∅) then mret ∅
  else
    r ← execute (db self) all_query;
    match r with
    | Rows ids => mret (list_to_set ids)
    | SqliteError e =>
        print (all_report e);;
        mret ∅
    end.

Definition filter_by_directory_scope (image_ids : gset string) : M (gset string) :=
  if decide (selected_directories self = ∅ ∨ image_ids = ∅) then mret image_ids
  else
    r ← execute (db self) (filter_query image_ids);
    match r with
    | Rows ids => mret (list_to_set ids)
    | SqliteError e =>
        print (filter_report e);;
        mret ∅
    end.

Fixpoint evaluate (node : ASTNode) : M (gset string) :=
  match node with
  | TagNode tag => get_image_ids_by_tag tag
  | AllImagesNode => get_all_image_ids_in_scope
  | AndNode l r =>
      left_set ← evaluate l;
      if decide (left_set = ∅) then mret ∅
      else
        right_set ← evaluate r;
        mret (left_set ∩ right_set)
  | OrNode l r =>
      left_set ← evaluate l;
      right_set ← evaluate r;
      mret (left_set ∪ right_set)
  | NotNode node' =>
      all_in_scope ← get_all_image_ids_in_scope;
      excluded_set ← evaluate node';
      mret (all_in_scope ∖ excluded_set)
  | BracketNode expression => evaluate expression
  | UnknownNode type_repr =>
      raise (ValueError ("Unknown AST node type during evaluation: " +:+ type_repr))
  end.

End Methods.

(** ** Sets and worlds the properties speak of *)

(** The world after a failed access whose report [line] was printed. *)
Definition after_failure (q : Query) (line : string) (w : World) : World :=
  {| pending := tail (pending w); issued := issued w ++ [q]; stdout := stdout w ++ [line] |}.

(** What the statement of [get_all_image_ids_in_scope] fetches: the ids
    of the images whose path matches the pattern of a selected
    directory. *)
Definition items_in_scope (self : SearchQueryEvaluator) : gset string :=
  list_to_set (rows (db self) (SelectAll (dir_params (selected_directories self)))).

(** The ids of all the images of the store, in scope or not. *)
Definition all_items (d : Database) : gset string :=
  list_to_set (images_id <$> images d).

(** What the statement of [get_image_ids_by_tag] fetches. *)
Definition items_with_tag (self : SearchQueryEvaluator) (tag : string) : gset string :=
  list_to_set (rows (db self) (SelectByTag tag (dir_params (selected_directories self)))).

Section Accesses.
Variable self : SearchQueryEvaluator.

(** A lookup either leaves the world alone (empty scope) or makes
    exactly one access. *)
Definition one_access_or_none (w w' : World) : Prop :=
  (selected_directories self = ∅ ∧ w' = w)
  ∨ (selected_directories self ≠ ∅ ∧ pending w' = tail (pending w)
     ∧ ∃ q, issued w' = (issued w ++ [q])%list).

End Accesses.

(** ** Tag names up to letter case *)

Definition is_upper (c : ascii) : bool :=
  ((65 <=? N_of_ascii c) && (N_of_ascii c <=? 90))%N.

(** The same character, or the upper-case and the lower-case form of
    one of the letters A-Z. *)
Definition same_letter (c1 c2 : ascii) : bool :=
  Ascii.eqb c1 c2
  || (is_upper c1 && (N_of_ascii c2 =? N_of_ascii c1 + 32)%N)
  || (is_upper c2 && (N_of_ascii c1 =? N_of_ascii c2 + 32)%N).

(** Two names that differ in the case of their letters at most. *)
Fixpoint equal_up_to_case (s1 s2 : string) : bool :=
  match s1, s2 with
  | EmptyString, EmptyString => true
  | String c1 s1', String c2 s2' => same_letter c1 c2 && equal_up_to_case s1' s2'
  | _, _ => false
  end.

Definition all_ascii : list ascii := ascii_of_nat <$> seq 0 256.

(** The letters with a lower-case form in the character set of this
    file, the code points below 256: A-Z and the accented capitals
    from [À] (192) to [Þ] (222), the sign [×] (215) apart. The
    lower-case form is 32 code points above. *)
Definition has_lower_form (c : ascii) : bool :=
  let n := N_of_ascii c in
  ((65 <=? n) && (n <=? 90) || (192 <=? n) && (n <=? 214) || (216 <=? n) && (n <=? 222))%N.

(** The same character, or the two forms of one letter, accented
    letters included. *)
Definition same_letter_any_case (c1 c2 : ascii) : bool :=
  Ascii.eqb c1 c2
  || (has_lower_form c1 && (N_of_ascii c2 =? N_of_ascii c1 + 32)%N)
  || (has_lower_form c2 && (N_of_ascii c1 =? N_of_ascii c2 + 32)%N).

(** Two names differing only in letter case, for every letter of the
    character set. *)
Fixpoint differ_only_in_case (s1 s2 : string) : bool :=
  match s1, s2 with
  | EmptyString, EmptyString => true
  | String c1 s1', String c2 s2' => same_letter_any_case c1 c2 && differ_only_in_case s1' s2'
  | _, _ => false
  end.

(** ** Directory patterns *)

(** [path.startswith(prefix)] *)
Fixpoint startswith (prefix path : string) : bool :=
  match prefix, path with
  | EmptyString, _ => true
  | String a prefix', String b path' => Ascii.eqb a b && startswith prefix' path'
  | String _ _, EmptyString => false
  end.

Fixpoint has_percent (s : string) : bool :=
  match s with
  | EmptyString => false
  | String c s' => Ascii.eqb c "%" || has_percent s'
  end.

(** ** The set algebra of a tree *)

(** What the six classes compute when every access answers: the rows of
    the two statements of the leaves, combined by the set operations of
    [evaluate]. *)
Fixpoint denote (self : SearchQueryEvaluator) (node : ASTNode) : gset string :=
  match node with
  | TagNode tag => items_with_tag self tag
  | AllImagesNode => items_in_scope self
  | AndNode l r => denote self l ∩ denote self r
  | OrNode l r => denote self l ∪ denote self r
  | NotNode n => items_in_scope self ∖ denote self n
  | BracketNode e => denote self e
  | UnknownNode _ => ∅
  end.

(** No [NotNode] in the tree. *)
Fixpoint not_free (node : ASTNode) : bool :=
  match node with
  | TagNode _ | AllImagesNode | UnknownNode _ => true
  | AndNode l r | OrNode l r => not_free l && not_free r
  | NotNode _ => false
  | BracketNode e => not_free e
  end.

(** No [AndNode] in the tree. *)
Fixpoint and_free (node : ASTNode) : bool :=
  match node with
  | TagNode _ | AllImagesNode | UnknownNode _ => true
  | AndNode _ _ => false
  | OrNode l r => and_free l && and_free r
  | NotNode n | BracketNode n => and_free n
  end.

(** The calls of a lookup method a full walk of the tree makes: one
    per [TagNode], one per [AllImagesNode], one per [NotNode]. *)
Fixpoint lookups (node : ASTNode) : nat :=
  match node with
  | TagNode _ | AllImagesNode => 1
  | AndNode l r | OrNode l r => lookups l + lookups r
  | NotNode n => S (lookups n)
  | BracketNode e => lookups e
  | UnknownNode _ => 0
  end.

(** The tags of the [TagNode]s of a tree. *)
Fixpoint tags_of (node : ASTNode) : list string :=
  match node with
  | TagNode tag => [tag]
  | AllImagesNode | UnknownNode _ => []
  | AndNode l r | OrNode l r => tags_of l ++ tags_of r
  | NotNode n | BracketNode n => tags_of n
  end.

(** How many of the outcomes are failures. *)
Fixpoint failures (os : list outcome) : nat :=
  match os with
  | [] => 0
  | Answers :: os' => failures os'
  | Fails _ :: os' => S (failures os')
  end.

(** From [w] to [w']: the accesses [qs] were made, in this order,
    each consuming one outcome, and one line was printed per failed
    access. *)
Definition accounted (w w' : World) (qs : list Query) : Prop :=
  issued w' = issued w ++ qs
  ∧ pending w' = drop (length qs) (pending w)
  ∧ ∃ lines, stdout w' = stdout w ++ lines
             ∧ length lines = failures (take (length qs) (pending w)).

(** An access [evaluate] may make for a tree: the one of
    [get_all_image_ids_in_scope], or the one of [get_image_ids_by_tag]
    for a tag of the tree. *)
Definition from_tree (self : SearchQueryEvaluator) (node : ASTNode) (q : Query) : Prop :=
  q = all_query self ∨ ∃ tag, tag ∈ tags_of node ∧ q = by_tag_query self tag.

(** The ids the association table gives a tag, whatever the scope:
    [image_tags] joined with [tags] on the name up to [lower], without
    the join on [images] and its LIKE conditions. *)
Definition tagged_ids (d : Database) (tag : string) : gset string :=
  list_to_set (it ← image_tags d;
               t ← tags d;
               if bool_decide (it_tag_id it = tags_id t)
                  && bool_decide (Sqlite.lower (tags_name t) = Sqlite.lower tag)
               then [it_image_id it] else []).

(** ** More on directory patterns *)

(** [%] or [_] somewhere in the string. *)
Fixpoint has_wildcard (s : string) : bool :=
  match s with
  | EmptyString => false
  | String c s' => Ascii.eqb c "%" || Ascii.eqb c "_" || has_wildcard s'
  end.

(** [path.lower().startswith(prefix.lower())], for the letters A-Z. *)
Fixpoint startswith_nocase (prefix path : string) : bool :=
  match prefix, path with
  | EmptyString, _ => true
  | String a prefix', String b path' =>
      Ascii.eqb (Sqlite.tolower a) (Sqlite.tolower b) && startswith_nocase prefix' path'
  | String _ _, EmptyString => false
  end.

(** An evaluator over the same store with other directories. *)
Definition with_directories (self : SearchQueryEvaluator) (dirs : gset string)
  : SearchQueryEvaluator :=
  {| db := db self; selected_directories := dirs |}.

(** ** The spec scenario, as a running example *)

Module Scenario.

Definition example_db : Database := {|
  images := [ {| images_id := "1"; images_path := "/a/1" |};
              {| images_id := "2"; images_path := "/a/2" |};
              {| images_id := "3"; images_path := "/b/3" |} ];
  tags := [ {| tags_id := 1; tags_name := "cat" |};
            {| tags_id := 2; tags_name := "dog" |} ];
  image_tags := [ {| it_image_id := "1"; it_tag_id := 1 |};
                  {| it_image_id := "2"; it_tag_id := 2 |};
                  {| it_image_id := "3"; it_tag_id := 1 |};
                  {| it_image_id := "3"; it_tag_id := 2 |} ]
|}.

Definition fresh : World := {| pending := []; issued := []; stdout := [] |}.

Definition ev : SearchQueryEvaluator := init id example_db ["/a"].

(** The same store with no directory selected. *)
Definition no_scope : SearchQueryEvaluator := init id example_db [].

(** A world whose first access raises. *)
Definition locked : World :=
  {| pending := [Fails "database is locked"]; issued := []; stdout := [] |}.

(** The tag names [É] and [é], one character each. *)
Definition e_acute_upper : string := String (ascii_of_N 201) EmptyString.
Definition e_acute_lower : string := String (ascii_of_N 233) EmptyString.

(** A store with one image, tagged [é], and its directory selected. *)
Definition accent_db : Database := {|
  images := [ {| images_id := "1"; images_path := "/a/1" |} ];
  tags := [ {| tags_id := 1; tags_name := e_acute_lower |} ];
  image_tags := [ {| it_image_id := "1"; it_tag_id := 1 |} ]
|}.

Definition accent_ev : SearchQueryEvaluator := init id accent_db ["/a"].

(** A world whose second access raises. *)
Definition second_fails : World :=
  {| pending := [Answers; Fails "disk I/O error"]; issued := []; stdout := [] |}.

(** A store with one image, in a directory whose name has a [%]. *)
Definition percent_db : Database := {|
  images := [ {| images_id := "9"; images_path := "/a%b/x" |} ];
  tags := [];
  image_tags := []
|}.

End Scenario.

(** ** Running the monad *)

Lemma bind_run {A B} (m : M A) (f : A → M B) (w : World) :
  (m ≫= f) w =
  match m w with
  | (Returned a, w') => f a w'
  | (Raised e, w') => (Raised e, w')
  end.
Proof. reflexivity. Qed.

Lemma ret_run {A} (a : A) (w : World) : (mret a : M A) w = (Returned a, w).
Proof. reflexivity. Qed.

(** ** The items in scope *)

Section Lookups.
Variable self : SearchQueryEvaluator.

Lemma dir_params_nil : selected_directories self = ∅ → dir_params (selected_directories self) = [].
Proof. intros ->. unfold dir_params. by rewrite elements_empty. Qed.

Lemma items_in_scope_empty : selected_directories self = ∅ → items_in_scope self = ∅.
Proof.
  intros H. unfold items_in_scope.  rewrite (dir_params_nil H). simpl.
  unfold select_all, dir_where_clause. simpl.
  induction (images (db self)) as [|i l IH]; [done|].
  rewrite filter_cons. by case_decide.
Qed.

Lemma elem_of_items_in_scope (x : string) :
  x ∈ items_in_scope self ↔
  ∃ i, i ∈ images (db self) ∧ images_id i = x
       ∧ dir_where_clause (dir_params (selected_directories self)) (images_path i) = true.
Proof.
  unfold items_in_scope. rewrite elem_of_list_to_set. simpl. unfold select_all.
  rewrite list_elem_of_fmap. setoid_rewrite list_elem_of_filter. naive_solver.
Qed.

Lemma elem_of_items_with_tag (tag x : string) :
  x ∈ items_with_tag self tag ↔
  ∃ it t i, it ∈ image_tags (db self) ∧ t ∈ tags (db self) ∧ i ∈ images (db self)
            ∧ it_image_id it = x
            ∧ it_tag_id it = tags_id t
            ∧ it_image_id it = images_id i
            ∧ Sqlite.lower (tags_name t) = Sqlite.lower tag
            ∧ dir_where_clause (dir_params (selected_directories self)) (images_path i) = true.
Proof.
  unfold items_with_tag. rewrite elem_of_list_to_set. simpl. unfold select_by_tag.
  rewrite list_elem_of_bind. split.
  - intros (it & Hx & Hit). apply list_elem_of_bind in Hx as (t & Hx & Ht).
    apply list_elem_of_bind in Hx as (i & Hx & Hi).
    destruct (_ && _) eqn:E in Hx; [|by apply not_elem_of_nil in Hx].
    apply list_elem_of_singleton in Hx.
    rewrite !andb_true_iff, !bool_decide_eq_true in E.
    exists it, t, i. naive_solver.
  - intros (it & t & i & Hit & Ht & Hi & Hx & E1 & E2 & E3 & E4).
    exists it. split; [|done]. apply list_elem_of_bind. exists t. split; [|done].
    apply list_elem_of_bind. exists i. split; [|done].
    rewrite !bool_decide_eq_true_2 by done. rewrite E4. simpl.
    apply list_elem_of_singleton. done.
Qed.

Lemma items_with_tag_in_scope (tag : string) :
  items_with_tag self tag ⊆ items_in_scope self.
Proof.
  intros x. rewrite elem_of_items_with_tag, elem_of_items_in_scope.
  intros (it & t & i & ? & ? & ? & ? & ? & ? & ? & ?). exists i. naive_solver.
Qed.

Lemma items_in_scope_all : items_in_scope self ⊆ all_items (db self).
Proof.
  intros x. rewrite elem_of_items_in_scope. unfold all_items.
  rewrite elem_of_list_to_set, list_elem_of_fmap. naive_solver.
Qed.

End Lookups.

(** ** The three lookups, case by case *)

Section LookupRuns.
Variable self : SearchQueryEvaluator.

Lemma by_tag_no_scope tag w :
  selected_directories self = ∅ →
  get_image_ids_by_tag self tag w = (Returned ∅, w).
Proof. intros H. unfold get_image_ids_by_tag. by rewrite decide_True. Qed.

Lemma by_tag_answers tag w :
  selected_directories self ≠ ∅ → next_outcome w = Answers →
  get_image_ids_by_tag self tag w
  = (Returned (items_with_tag self tag), after_access (by_tag_query self tag) w).
Proof.
  intros H Ho. unfold get_image_ids_by_tag. rewrite decide_False by done.
  rewrite bind_run. unfold execute. by rewrite Ho.
Qed.

Lemma by_tag_fails tag e w :
  selected_directories self ≠ ∅ → next_outcome w = Fails e →
  get_image_ids_by_tag self tag w
  = (Returned ∅, after_failure (by_tag_query self tag) (by_tag_report tag e) w).
Proof.
  intros H Ho. unfold get_image_ids_by_tag. rewrite decide_False by done.
  rewrite bind_run. unfold execute. by rewrite Ho.
Qed.

Lemma all_no_scope w :
  selected_directories self = ∅ →
  get_all_image_ids_in_scope self w = (Returned ∅, w).
Proof. intros H. unfold get_all_image_ids_in_scope. by rewrite decide_True. Qed.

Lemma all_answers w :
  selected_directories self ≠ ∅ → next_outcome w = Answers →
  get_all_image_ids_in_scope self w
  = (Returned (items_in_scope self), after_access (all_query self) w).
Proof.
  intros H Ho. unfold get_all_image_ids_in_scope. rewrite decide_False by done.
  rewrite bind_run. unfold execute. by rewrite Ho.
Qed.

Lemma all_fails e w :
  selected_directories self ≠ ∅ → next_outcome w = Fails e →
  get_all_image_ids_in_scope self w
  = (Returned ∅, after_failure (all_query self) (all_report e) w).
Proof.
  intros H Ho. unfold get_all_image_ids_in_scope. rewrite decide_False by done.
  rewrite bind_run. unfold execute. by rewrite Ho.
Qed.

(** Whatever the store does, a lookup returns a set, and that set
    holds items in scope only. *)
Lemma by_tag_returns tag w :
  ∃ r w', get_image_ids_by_tag self tag w = (Returned r, w')
          ∧ r ⊆ items_with_tag self tag.
Proof.
  destruct (decide (selected_directories self = ∅)) as [H|H].
  - eexists _, _. split; [by apply by_tag_no_scope|]. set_solver.
  - destruct (next_outcome w) as [|e] eqn:Ho.
    + eexists _, _. split; [by apply by_tag_answers|]. set_solver.
    + eexists _, _. split; [by apply by_tag_fails|]. set_solver.
Qed.

Lemma all_returns w :
  ∃ r w', get_all_image_ids_in_scope self w = (Returned r, w')
          ∧ r ⊆ items_in_scope self.
Proof.
  destruct (decide (selected_directories self = ∅)) as [H|H].
  - eexists _, _. split; [by apply all_no_scope|]. set_solver.
  - destruct (next_outcome w) as [|e] eqn:Ho.
    + eexists _, _. split; [by apply all_answers|]. set_solver.
    + eexists _, _. split; [by apply all_fails|]. set_solver.
Qed.

(** When the access answers, be the scope empty or not, the lookup of
    all the items returns [items_in_scope]. *)
Lemma all_value_answers w :
  next_outcome w = Answers →
  fst (get_all_image_ids_in_scope self w) = Returned (items_in_scope self).
Proof.
  intros Ho. destruct (decide (selected_directories self = ∅)) as [H|H].
  - rewrite all_no_scope by done. simpl. by rewrite items_in_scope_empty.
  - by rewrite all_answers.
Qed.

Lemma by_tag_value_answers tag w :
  next_outcome w = Answers →
  fst (get_image_ids_by_tag self tag w) = Returned (items_with_tag self tag).
Proof.
  intros Ho. destruct (decide (selected_directories self = ∅)) as [H|H].
  - rewrite by_tag_no_scope by done. simpl. f_equal. symmetry.
    apply (anti_symm (⊆)); [|set_solver].
    rewrite <- (items_in_scope_empty self H). apply items_with_tag_in_scope.
  - by rewrite by_tag_answers.
Qed.

(** ** [evaluate] stays in scope *)

Lemma evaluate_in_scope node :
  ∀ w r w', evaluate self node w = (Returned r, w') → r ⊆ items_in_scope self.
Proof.
  induction node as [tag| |l IHl r IHr|l IHl r IHr|n IHn|n IHn|ty]; intros w res w' E; simpl in E.
  - destruct (by_tag_returns tag w) as (x & w1 & Ex & Hx). rewrite Ex in E.
    injection E as <- _. etrans; [done|]. apply items_with_tag_in_scope.
  - destruct (all_returns w) as (x & w1 & Ex & Hx). rewrite Ex in E.
    by injection E as <- _.
  - rewrite bind_run in E. destruct (evaluate self l w) as [[L|e] w1] eqn:El; [|done].
    case_decide.
    + injection E as <- _. set_solver.
    + rewrite bind_run in E. destruct (evaluate self r w1) as [[R|e] w2] eqn:Er; [|done].
      injection E as <- _. specialize (IHl _ _ _ El). set_solver.
  - rewrite bind_run in E. destruct (evaluate self l w) as [[L|e] w1] eqn:El; [|done].
    rewrite bind_run in E. destruct (evaluate self r w1) as [[R|e] w2] eqn:Er; [|done].
    injection E as <- _. specialize (IHl _ _ _ El). specialize (IHr _ _ _ Er). set_solver.
  - rewrite bind_run in E. destruct (all_returns w) as (U & w1 & EU & HU). rewrite EU in E.
    rewrite bind_run in E. destruct (evaluate self n w1) as [[X|e] w2] eqn:En; [|done].
    injection E as <- _. set_solver.
  - eauto.
  - done.
Qed.

End LookupRuns.

(** ** What an evaluation does to the world *)

Lemma healthy_next w : healthy w → next_outcome w = Answers.
Proof.
  unfold healthy, next_outcome. destruct (pending w) as [|o l]; [done|].
  intros H. by apply Forall_cons in H as [-> _].
Qed.

Lemma healthy_tail w w' : healthy w → pending w' = tail (pending w) → healthy w'.
Proof.
  unfold healthy. intros H ->. destruct (pending w); [done|]. by apply Forall_cons in H as [_ ?].
Qed.

Section Worlds.
Variable self : SearchQueryEvaluator.

Lemma by_tag_world tag w :
  ∃ r w', get_image_ids_by_tag self tag w = (Returned r, w') ∧ one_access_or_none self w w'.
Proof.
  destruct (decide (selected_directories self = ∅)) as [H|H].
  - eexists _, _. split; [by apply by_tag_no_scope|]. by left.
  - destruct (next_outcome w) as [|e] eqn:Ho.
    + eexists _, _. split; [by apply by_tag_answers|]. right. simpl. eauto.
    + eexists _, _. split; [by apply by_tag_fails|]. right. simpl. eauto.
Qed.

Lemma all_world w :
  ∃ r w', get_all_image_ids_in_scope self w = (Returned r, w') ∧ one_access_or_none self w w'.
Proof.
  destruct (decide (selected_directories self = ∅)) as [H|H].
  - eexists _, _. split; [by apply all_no_scope|]. by left.
  - destruct (next_outcome w) as [|e] eqn:Ho.
    + eexists _, _. split; [by apply all_answers|]. right. simpl. eauto.
    + eexists _, _. split; [by apply all_fails|]. right. simpl. eauto.
Qed.

Lemma one_access_healthy w w' : one_access_or_none self w w' → healthy w → healthy w'.
Proof. intros [[_ ->]|(_ & Hp & _)] H; [done|]. by eapply healthy_tail. Qed.

Lemma one_access_issued w w' :
  one_access_or_none self w w' → length (issued w) ≤ length (issued w').
Proof.
  intros [[_ ->]|(_ & _ & q & ->)]; [done|]. rewrite length_app. simpl. lia.
Qed.

Lemma one_access_issued_lt w w' :
  selected_directories self ≠ ∅ →
  one_access_or_none self w w' → length (issued w) < length (issued w').
Proof.
  intros Hne [[? _]|(_ & _ & q & ->)]; [done|]. rewrite length_app. simpl. lia.
Qed.

(** The case analysis every proof about [evaluate] starts with. *)
Ltac step_leaf H :=
  match type of H with
  | context [get_image_ids_by_tag self ?t ?w] =>
      let r := fresh "r" in let w1 := fresh "w" in
      let E := fresh "E" in let Hw := fresh "Hw" in
      destruct (by_tag_world t w) as (r & w1 & E & Hw); rewrite E in H
  | context [get_all_image_ids_in_scope self ?w] =>
      let r := fresh "r" in let w1 := fresh "w" in
      let E := fresh "E" in let Hw := fresh "Hw" in
      destruct (all_world w) as (r & w1 & E & Hw); rewrite E in H
  end.

Ltac step_eval H :=
  match type of H with
  | context [evaluate self ?n ?w] =>
      let r := fresh "r" in let e := fresh "e" in let w1 := fresh "w" in
      let E := fresh "E" in
      destruct (evaluate self n w) as [[r|e] w1] eqn:E
  end.

Lemma evaluate_healthy node :
  ∀ w x w', evaluate self node w = (x, w') → healthy w → healthy w'.
Proof.
  induction node as [tag| |l IHl r IHr|l IHl r IHr|n IHn|n IHn|ty]; intros w x w' E Hh; simpl in E.
  - step_leaf E. injection E as _ <-. by eapply one_access_healthy.
  - step_leaf E. injection E as _ <-. by eapply one_access_healthy.
  - rewrite bind_run in E. step_eval E.
    + case_decide.
      * injection E as _ <-. eauto.
      * rewrite bind_run in E. step_eval E; injection E as _ <-; eauto.
    + injection E as _ <-. eauto.
  - rewrite bind_run in E. step_eval E.
    + rewrite bind_run in E. step_eval E; injection E as _ <-; eauto.
    + injection E as _ <-. eauto.
  - rewrite bind_run in E. step_leaf E. rewrite bind_run in E.
    pose proof (one_access_healthy _ _ Hw Hh).
    step_eval E; injection E as _ <-; eauto.
  - eauto.
  - by injection E as _ <-.
Qed.

Lemma evaluate_issued node :
  ∀ w x w', evaluate self node w = (x, w') → length (issued w) ≤ length (issued w').
Proof.
  induction node as [tag| |l IHl r IHr|l IHl r IHr|n IHn|n IHn|ty]; intros w x w' E; simpl in E.
  - step_leaf E. injection E as _ <-. by eapply one_access_issued.
  - step_leaf E. injection E as _ <-. by eapply one_access_issued.
  - rewrite bind_run in E. step_eval E.
    + case_decide.
      * injection E as _ <-. eauto.
      * rewrite bind_run in E. specialize (IHl _ _ _ E0).
        step_eval E; injection E as _ <-; specialize (IHr _ _ _ E1); lia.
    + injection E as _ <-. eauto.
  - rewrite bind_run in E. step_eval E.
    + rewrite bind_run in E. specialize (IHl _ _ _ E0).
      step_eval E; injection E as _ <-; specialize (IHr _ _ _ E1); lia.
    + injection E as _ <-. eauto.
  - rewrite bind_run in E. step_leaf E. rewrite bind_run in E.
    pose proof (one_access_issued _ _ Hw).
    step_eval E; injection E as _ <-; specialize (IHn _ _ _ E1); lia.
  - eauto.
  - by injection E as _ <-.
Qed.

(** With a scope, evaluating a tree of the six classes reaches a leaf
    and so makes at least one access. *)
Lemma evaluate_accesses_store node :
  selected_directories self ≠ ∅ → six_variants node = true →
  ∀ w x w', evaluate self node w = (x, w') → length (issued w) < length (issued w').
Proof.
  intros Hne.
  induction node as [tag| |l IHl r IHr|l IHl r IHr|n IHn|n IHn|ty]; intros Hs w x w' E;
    simpl in E, Hs.
  - step_leaf E. injection E as _ <-. by eapply one_access_issued_lt.
  - step_leaf E. injection E as _ <-. by eapply one_access_issued_lt.
  - apply andb_prop in Hs as [Hl Hr]. rewrite bind_run in E. step_eval E.
    + specialize (IHl Hl _ _ _ E0). case_decide.
      * by injection E as _ <-.
      * rewrite bind_run in E.
        step_eval E; injection E as _ <-; pose proof (evaluate_issued _ _ _ _ E1); lia.
    + injection E as _ <-. eauto.
  - apply andb_prop in Hs as [Hl Hr]. rewrite bind_run in E. step_eval E.
    + specialize (IHl Hl _ _ _ E0). rewrite bind_run in E.
      step_eval E; injection E as _ <-; pose proof (evaluate_issued _ _ _ _ E1); lia.
    + injection E as _ <-. eauto.
  - rewrite bind_run in E. step_leaf E. rewrite bind_run in E.
    pose proof (one_access_issued_lt _ _ Hne Hw).
    step_eval E; injection E as _ <-; pose proof (evaluate_issued _ _ _ _ E1); lia.
  - eauto.
  - done.
Qed.

(** In worlds whose store answers every access, the value of an
    evaluation does not depend on the world. *)
Lemma evaluate_healthy_value node :
  ∀ w1 w2, healthy w1 → healthy w2 →
           fst (evaluate self node w1) = fst (evaluate self node w2).
Proof.
  induction node as [tag| |l IHl r IHr|l IHl r IHr|n IHn|n IHn|ty]; intros w1 w2 H1 H2; simpl.
  - rewrite !by_tag_value_answers by by apply healthy_next. done.
  - rewrite !all_value_answers by by apply healthy_next. done.
  - rewrite !bind_run. specialize (IHl w1 w2 H1 H2).
    destruct (evaluate self l w1) as [[L1|e1] u1] eqn:E1;
      destruct (evaluate self l w2) as [[L2|e2] u2] eqn:E2; simpl in IHl; try done.
    + injection IHl as <-. case_decide; [done|]. rewrite !bind_run.
      specialize (IHr u1 u2 (evaluate_healthy _ _ _ _ E1 H1) (evaluate_healthy _ _ _ _ E2 H2)).
      destruct (evaluate self r u1) as [[R1|?] ?], (evaluate self r u2) as [[R2|?] ?];
        simpl in *; congruence.
  - rewrite !bind_run. specialize (IHl w1 w2 H1 H2).
    destruct (evaluate self l w1) as [[L1|e1] u1] eqn:E1;
      destruct (evaluate self l w2) as [[L2|e2] u2] eqn:E2; simpl in IHl; try done.
    injection IHl as <-. rewrite !bind_run.
    specialize (IHr u1 u2 (evaluate_healthy _ _ _ _ E1 H1) (evaluate_healthy _ _ _ _ E2 H2)).
    destruct (evaluate self r u1) as [[R1|?] ?], (evaluate self r u2) as [[R2|?] ?];
      simpl in *; congruence.
  - rewrite !bind_run.
    destruct (all_world w1) as (U1 & u1 & E1 & Hw1).
    destruct (all_world w2) as (U2 & u2 & E2 & Hw2).
    pose proof (all_value_answers self w1 (healthy_next _ H1)) as V1.
    pose proof (all_value_answers self w2 (healthy_next _ H2)) as V2.
    rewrite E1 in V1 |- *. rewrite E2 in V2 |- *. simpl in V1, V2.
    injection V1 as ->. injection V2 as ->. rewrite !bind_run.
    specialize (IHn u1 u2 (one_access_healthy _ _ Hw1 H1) (one_access_healthy _ _ Hw2 H2)).
    destruct (evaluate self n u1) as [[R1|?] ?], (evaluate self n u2) as [[R2|?] ?];
      simpl in *; congruence.
  - eauto.
  - done.
Qed.

End Worlds.

(** ** The properties of the specification *)

(** Two runs that differ by an equation between sets only. *)
Ltac same_value :=
  first [done | f_equal; first [done | set_solver | f_equal; first [done | set_solver]]].

Section Claims.
Variable self : SearchQueryEvaluator.

(** C1. Whatever [evaluate] returns, for any node, any scope and
    any behaviour of the store, is a subset of what
    [get_all_image_ids_in_scope] returns when the store answers it:
    no path, [NotNode] and [OrNode] included, yields an item out of
    scope. *)
Theorem evaluate_subset_of_scope (node : ASTNode) (w w0 : World) (r U : gset string) :
  fst (evaluate self node w) = Returned r →
  next_outcome w0 = Answers →
  fst (get_all_image_ids_in_scope self w0) = Returned U →
  r ⊆ U.
Proof.
  intros E Ho EU. rewrite all_value_answers in EU by done. injection EU as <-.
  destruct (evaluate self node w) as [x w'] eqn:En. simpl in E. subst x.
  by eapply evaluate_in_scope.
Qed.

(** C2. With an empty [selected_directories], [evaluate] returns the
    empty set for every tree of the six classes, and the world is
    left as it was: no statement is sent, no outcome is consumed,
    nothing is printed. *)
Theorem empty_scope_evaluates_to_empty (node : ASTNode) (w : World) :
  selected_directories self = ∅ → six_variants node = true →
  evaluate self node w = (Returned ∅, w).
Proof.
  intros He. revert w.
  induction node as [tag| |l IHl r IHr|l IHl r IHr|n IHn|n IHn|ty]; intros w Hs; simpl in *.
  - by apply by_tag_no_scope.
  - by apply all_no_scope.
  - apply andb_prop in Hs as [Hl Hr]. rewrite bind_run, IHl by done. by rewrite decide_True.
  - apply andb_prop in Hs as [Hl Hr]. rewrite bind_run, IHl by done.
    rewrite bind_run, IHr by done. rewrite ret_run. same_value.
  - rewrite bind_run, all_no_scope by done. rewrite bind_run, IHn by done.
    rewrite ret_run. same_value.
  - eauto.
  - done.
Qed.

(** C3. [evaluate (NotNode n)] is what [get_all_image_ids_in_scope]
    returned minus what [evaluate n] returned; the minuend holds
    items in scope only, and is exactly the set of the items in scope
    when the access answers. It is never the set of all the items of
    the store. *)
Theorem not_is_complement_in_scope (n : ASTNode) (w w1 w2 : World) (U E : gset string) :
  get_all_image_ids_in_scope self w = (Returned U, w1) →
  evaluate self n w1 = (Returned E, w2) →
  evaluate self (NotNode n) w = (Returned (U ∖ E), w2)
  ∧ U ⊆ items_in_scope self
  ∧ (next_outcome w = Answers → U = items_in_scope self).
Proof.
  intros EU En. split; [|split].
  - simpl. rewrite bind_run, EU, bind_run, En. done.
  - destruct (all_returns self w) as (U' & w' & EU' & HU).
    rewrite EU in EU'. by injection EU' as -> _.
  - intros Ho. pose proof (all_value_answers self w Ho) as V. rewrite EU in V.
    by injection V.
Qed.

(** C4. [evaluate (AndNode l r)] is the intersection of the two
    values. When the left value is empty the result is empty and the
    world is the one [evaluate l] left: [r] is not evaluated.
    Otherwise [r] is evaluated next, from that world. *)
Theorem and_intersects_and_short_circuits (l r : ASTNode) (w w1 : World) (L : gset string) :
  evaluate self l w = (Returned L, w1) →
  (L = ∅ → evaluate self (AndNode l r) w = (Returned ∅, w1))
  ∧ (∀ R w2, evaluate self r w1 = (Returned R, w2) →
             fst (evaluate self (AndNode l r) w) = Returned (L ∩ R))
  ∧ (L ≠ ∅ → ∀ R w2, evaluate self r w1 = (Returned R, w2) →
             evaluate self (AndNode l r) w = (Returned (L ∩ R), w2)).
Proof.
  intros El. simpl. rewrite bind_run, El. split; [|split].
  - intros ->. by rewrite decide_True.
  - intros R w2 Er. case_decide as HL.
    + subst L. simpl. f_equal. set_solver.
    + by rewrite bind_run, Er.
  - intros HL R w2 Er. rewrite decide_False by done. by rewrite bind_run, Er.
Qed.

(** C5. When the access of a leaf lookup raises [sqlite3.Error], the
    lookup returns the empty set and prints a report; nothing is
    raised. So an [OrNode] with such a leaf on one side returns what
    its other side returns. *)
Theorem failed_lookup_degrades_to_empty (tag e : string) (w : World) :
  selected_directories self ≠ ∅ → next_outcome w = Fails e →
  get_image_ids_by_tag self tag w
    = (Returned ∅, after_failure (by_tag_query self tag) (by_tag_report tag e) w)
  ∧ get_all_image_ids_in_scope self w
    = (Returned ∅, after_failure (all_query self) (all_report e) w)
  ∧ (∀ other R w2,
       evaluate self other (after_failure (by_tag_query self tag) (by_tag_report tag e) w)
         = (Returned R, w2) →
       evaluate self (OrNode (TagNode tag) other) w = (Returned R, w2))
  ∧ (∀ other R w2,
       evaluate self other (after_failure (all_query self) (all_report e) w)
         = (Returned R, w2) →
       evaluate self (OrNode AllImagesNode other) w = (Returned R, w2))
  ∧ (∀ other L w0,
       evaluate self other w0 = (Returned L, w) →
       evaluate self (OrNode other (TagNode tag)) w0
         = (Returned L, after_failure (by_tag_query self tag) (by_tag_report tag e) w)).
Proof.
  intros Hne Ho. repeat split.
  - by apply by_tag_fails.
  - by apply all_fails.
  - intros other R w2 Er. simpl. rewrite bind_run, (by_tag_fails self tag e) by done.
    rewrite bind_run, Er, ret_run. same_value.
  - intros other R w2 Er. simpl. rewrite bind_run, (all_fails self e) by done.
    rewrite bind_run, Er, ret_run. same_value.
  - intros other L w0 El. simpl. rewrite bind_run, El.
    rewrite bind_run, (by_tag_fails self tag e) by done.
    rewrite ret_run. same_value.
Qed.

(** Double negation once the two lookups of the [NotNode]s have
    answered: the value is that of the inner tree, evaluated after
    them. *)
Lemma double_negation_after_lookups (a : ASTNode) (w w1 w2 : World) (U1 U2 : gset string) :
  next_outcome w = Answers → next_outcome w1 = Answers →
  get_all_image_ids_in_scope self w = (Returned U1, w1) →
  get_all_image_ids_in_scope self w1 = (Returned U2, w2) →
  fst (evaluate self (NotNode (NotNode a)) w) = fst (evaluate self a w2).
Proof.
  intros Ho Ho1 E1 E2.
  pose proof (all_value_answers self w Ho) as V1. rewrite E1 in V1. injection V1 as ->.
  pose proof (all_value_answers self w1 Ho1) as V2. rewrite E2 in V2. injection V2 as ->.
  simpl. rewrite bind_run, E1, bind_run, bind_run, E2, bind_run.
  destruct (evaluate self a w2) as [[A|e] w3] eqn:Ea; [|done].
  simpl. f_equal. pose proof (evaluate_in_scope self a _ _ _ Ea) as HA.
  apply set_eq. intros x. rewrite !elem_of_difference.
  split; [|set_solver]. intros [Hx Hn]. destruct (decide (x ∈ A)); [done|]. by destruct Hn.
Qed.

(** C8. When the store answers, [evaluate (NotNode (NotNode a))] and
    [evaluate a] have the same value: the same set, or the same
    exception. *)
Theorem double_negation (a : ASTNode) (w : World) :
  healthy w →
  fst (evaluate self (NotNode (NotNode a)) w) = fst (evaluate self a w).
Proof.
  intros Hh.
  destruct (all_world self w) as (U1 & w1 & E1 & Hw1).
  pose proof (one_access_healthy self _ _ Hw1 Hh) as Hh1.
  destruct (all_world self w1) as (U2 & w2 & E2 & Hw2).
  pose proof (one_access_healthy self _ _ Hw2 Hh1) as Hh2.
  rewrite (double_negation_after_lookups a w w1 w2 U1 U2) by auto using healthy_next.
  by apply evaluate_healthy_value.
Qed.

(** C10. [evaluate] raises [ValueError] at a node that is none of
    the six classes; on a tree built from the six classes only it
    returns a set; and whenever it raises, the tree holds a node of
    another class. *)
Theorem value_error_only_for_unknown_nodes :
  (∀ ty w, evaluate self (UnknownNode ty) w
           = (Raised (ValueError ("Unknown AST node type during evaluation: " +:+ ty)), w))
  ∧ (∀ node w, six_variants node = true →
               ∃ r w', evaluate self node w = (Returned r, w'))
  ∧ (∀ node w e w', evaluate self node w = (Raised e, w') → six_variants node = false).
Proof.
  assert (Hret : ∀ node w, six_variants node = true →
                           ∃ r w', evaluate self node w = (Returned r, w')).
  { induction node as [tag| |l IHl r IHr|l IHl r IHr|n IHn|n IHn|ty]; intros w Hs; simpl in *.
    - destruct (by_tag_world self tag w) as (x & w' & E & _). eauto.
    - destruct (all_world self w) as (x & w' & E & _). eauto.
    - apply andb_prop in Hs as [Hl Hr]. destruct (IHl w Hl) as (L & w1 & El).
      rewrite bind_run, El. case_decide; [by eexists _, _|].
      destruct (IHr w1 Hr) as (R & w2 & Er). rewrite bind_run, Er. by eexists _, _.
    - apply andb_prop in Hs as [Hl Hr]. destruct (IHl w Hl) as (L & w1 & El).
      destruct (IHr w1 Hr) as (R & w2 & Er).
      rewrite bind_run, El, bind_run, Er. by eexists _, _.
    - destruct (all_world self w) as (U & w1 & EU & _).
      destruct (IHn w1 Hs) as (X & w2 & En).
      rewrite bind_run, EU, bind_run, En. by eexists _, _.
    - eauto.
    - done. }
  split; [done|]. split; [done|].
  intros node w e w' E. destruct (six_variants node) eqn:Hs; [|done].
  destruct (Hret node w Hs) as (r & w'' & E'). congruence.
Qed.

End Claims.

(** ** Tag names up to letter case *)

Lemma elem_of_all_ascii (c : ascii) : c ∈ all_ascii.
Proof.
  unfold all_ascii. apply list_elem_of_fmap. exists (nat_of_ascii c). split.
  - by rewrite ascii_nat_embedding.
  - apply elem_of_seq. pose proof (nat_ascii_bounded c). lia.
Qed.

Lemma for_all_ascii (P : ascii → bool) :
  forallb P all_ascii = true → ∀ c, P c = true.
Proof.
  intros H c. rewrite forallb_forall in H. apply H, list_elem_of_In, elem_of_all_ascii.
Qed.

Lemma same_letter_tolower (c1 c2 : ascii) :
  same_letter c1 c2 = Ascii.eqb (Sqlite.tolower c1) (Sqlite.tolower c2).
Proof.
  assert (H : ∀ a, forallb (λ b, Bool.eqb (same_letter a b)
                       (Ascii.eqb (Sqlite.tolower a) (Sqlite.tolower b))) all_ascii = true).
  { apply (for_all_ascii (λ a, forallb (λ b, Bool.eqb (same_letter a b)
                       (Ascii.eqb (Sqlite.tolower a) (Sqlite.tolower b))) all_ascii)).
    vm_compute. reflexivity. }
  apply Bool.eqb_prop. apply (for_all_ascii _ (H c1)).
Qed.

Lemma equal_up_to_case_lower (s1 s2 : string) :
  equal_up_to_case s1 s2 = true ↔ Sqlite.lower s1 = Sqlite.lower s2.
Proof.
  revert s2. induction s1 as [|c1 s1 IH]; intros [|c2 s2]; simpl; try done.
  rewrite andb_true_iff, same_letter_tolower, Ascii.eqb_eq, IH.
  split; [by intros [-> ->]|]. by intros [= -> ->].
Qed.

(** ** Directory patterns *)

Lemma startswith_split (p s : string) :
  startswith p s = true ↔ ∃ t, s = p +:+ t.
Proof.
  revert s. induction p as [|c p IH]; intros s; simpl.
  - split; [intros _; by exists s|done].
  - destruct s as [|x s]; [split; [done|by intros [? ?]]|].
    rewrite andb_true_iff, Ascii.eqb_eq, IH. split.
    + intros [-> [t ->]]. by exists t.
    + intros [t [= -> ->]]. eauto.
Qed.

Lemma like_percent_unfold (pat s : string) :
  Sqlite.like (String "%" pat) s
  = Sqlite.like pat s
    || match s with
       | EmptyString => false
       | String _ s' => Sqlite.like (String "%" pat) s'
       end.
Proof. destruct s; reflexivity. Qed.

Lemma like_percent_all (s : string) : Sqlite.like "%" s = true.
Proof.
  induction s as [|c s IH]; [done|]. rewrite like_percent_unfold, IH. apply orb_true_r.
Qed.

Lemma tolower_slash (a : ascii) : Sqlite.tolower "/" = Sqlite.tolower a → a = "/"%char.
Proof.
  intros H. apply Ascii.eqb_eq. apply Ascii.eqb_eq in H. revert H.
  generalize (for_all_ascii
    (λ a, implb (Ascii.eqb (Sqlite.tolower "/") (Sqlite.tolower a)) (Ascii.eqb a "/"))
    eq_refl a).
  by destruct (Ascii.eqb (Sqlite.tolower "/") (Sqlite.tolower a)), (Ascii.eqb a "/").
Qed.

(** A pattern matches itself followed by whatever its rest matches,
    wildcards or not. *)
Lemma like_self_prefix (p rest t : string) :
  Sqlite.like rest t = true → Sqlite.like (p +:+ rest) (p +:+ t) = true.
Proof.
  intros H. induction p as [|c p IH]; [done|].
  change (Sqlite.like (String c (p +:+ rest)) (String c (p +:+ t)) = true).
  destruct (Ascii.eqb c "%") eqn:Ec.
  - apply Ascii.eqb_eq in Ec as ->.
    rewrite like_percent_unfold, like_percent_unfold, IH. by rewrite orb_true_r.
  - simpl. rewrite Ec. destruct (Ascii.eqb c "_"); [done|]. by rewrite Ascii.eqb_refl, IH.
Qed.

(** Without [%] in it, a pattern consumes as many characters as it
    has; on a path that starts with the very same characters, what
    follows them must match the rest of the pattern. *)
Lemma like_literal_prefix (p rest t : string) :
  has_percent p = false →
  Sqlite.like (p +:+ rest) (p +:+ t) = true → Sqlite.like rest t = true.
Proof.
  intros Hp. induction p as [|c p IH]; [done|].
  simpl in Hp. apply orb_false_elim in Hp as [Ec Hp].
  change (Sqlite.like (String c (p +:+ rest)) (String c (p +:+ t)) = true
          → Sqlite.like rest t = true).
  simpl. rewrite Ec. destruct (Ascii.eqb c "_"); [by auto|].
  rewrite Ascii.eqb_refl. simpl. auto.
Qed.

Lemma app_cons (c : ascii) (s t : string) : String c s +:+ t = String c (s +:+ t).
Proof. reflexivity. Qed.

Lemma endswith_slash_app (d : string) : endswith_slash (d +:+ "/") = true.
Proof.
  induction d as [|c d IH]; [done|]. rewrite app_cons. simpl.
  destruct (d +:+ "/") eqn:E; [by destruct d|done].
Qed.

Lemma with_separator_ends (d : string) : endswith_slash (with_separator d) = true.
Proof.
  unfold with_separator. destruct (endswith_slash d) eqn:E; [done|]. apply endswith_slash_app.
Qed.

Lemma app_assoc_string (a b c : string) : (a +:+ b) +:+ c = a +:+ (b +:+ c).
Proof. induction a as [|x a IH]; [done|]. by rewrite !app_cons, IH. Qed.

(** An item below a selected directory matches its pattern. *)
Lemma inside_matches (d t : string) :
  Sqlite.like (dir_param d) (with_separator d +:+ t) = true.
Proof. unfold dir_param. apply like_self_prefix, like_percent_all. Qed.

(** X24. A path that starts with the characters of the directory but
    not with the directory and its separator, a sibling such as [/ab/x]
    for [/a], does not match, as long as the directory has no [%] in
    it. *)
Lemma sibling_not_matched (d path : string) :
  has_percent d = false →
  startswith d path = true → startswith (with_separator d) path = false →
  Sqlite.like (dir_param d) path = false.
Proof.
  intros Hp Hd Hs. apply startswith_split in Hd as [t ->].
  unfold dir_param, with_separator in *. destruct (endswith_slash d).
  - assert (startswith d (d +:+ t) = true) by (apply startswith_split; eauto). congruence.
  - apply not_true_is_false. intros H. rewrite app_assoc_string in H.
    apply like_literal_prefix in H; [|done].
    destruct t as [|x t]; [done|].
    change (Ascii.eqb (Sqlite.tolower "/") (Sqlite.tolower x) && Sqlite.like "%" t = true) in H.
    apply andb_prop in H as [Hx _]. apply Ascii.eqb_eq in Hx.
    apply tolower_slash in Hx as ->.
    assert (startswith (d +:+ "/") (d +:+ String "/" t) = true); [|congruence].
    apply startswith_split. exists t. by rewrite app_assoc_string.
Qed.

(** ** Scope handling *)

(** The selected directories are a set: a directory given twice, or
    two directories with one normal form, count once. *)
Lemma init_ignores_duplicates (normalize_path : string → string) (d : Database)
    (dirs1 dirs2 : list string) :
  (∀ x, x ∈ dirs1 ↔ x ∈ dirs2) →
  init normalize_path d dirs1 = init normalize_path d dirs2.
Proof.
  intros H. unfold init. f_equal. apply set_eq. intros x.
  rewrite !elem_of_list_to_set, !list_elem_of_fmap. naive_solver.
Qed.

Lemma selected_directories_NoDup (self : SearchQueryEvaluator) :
  NoDup (elements (selected_directories self)).
Proof. apply NoDup_elements. Qed.

(** Each pattern is a selected directory, closed by a separator, then
    [%]; there is one pattern per selected directory. *)
Lemma dir_params_shape (self : SearchQueryEvaluator) (p : string) :
  p ∈ dir_params (selected_directories self) ↔
  ∃ d, d ∈ selected_directories self ∧ p = with_separator d +:+ "%".
Proof.
  unfold dir_params. rewrite list_elem_of_fmap. setoid_rewrite elem_of_elements.
  unfold dir_param. naive_solver.
Qed.

Lemma dir_params_length (self : SearchQueryEvaluator) :
  length (dir_params (selected_directories self)) = size (selected_directories self).
Proof. unfold dir_params. by rewrite length_fmap. Qed.

(** The example of the specification: with [/a] selected, [/a/x] is in
    scope and [/ab/x] is not. *)
Lemma separator_example (normalize_path : string → string) (d : Database) :
  normalize_path "/a" = "/a" →
  let dirs := selected_directories (init normalize_path d ["/a"]) in
  dir_params dirs = ["/a/%"]
  ∧ dir_where_clause (dir_params dirs) "/a/x" = true
  ∧ dir_where_clause (dir_params dirs) "/ab/x" = false.
Proof.
  intros H dirs.
  assert (dirs = {["/a"]}) as -> by (subst dirs; simpl; rewrite H; set_solver).
  unfold dir_params. rewrite elements_singleton. done.
Qed.

Section MoreClaims.
Variable self : SearchQueryEvaluator.

Lemma filter_no_scope (image_ids : gset string) (w : World) :
  selected_directories self = ∅ ∨ image_ids = ∅ →
  filter_by_directory_scope self image_ids w = (Returned image_ids, w).
Proof. intros H. unfold filter_by_directory_scope. by rewrite decide_True. Qed.

Lemma select_filtered_meets_scope (image_ids : gset string) :
  list_to_set (rows (db self) (filter_query self image_ids))
  = image_ids ∩ items_in_scope self.
Proof.
  apply set_eq. intros x. rewrite elem_of_intersection, elem_of_items_in_scope.
  rewrite elem_of_list_to_set. simpl. unfold select_filtered.
  rewrite list_elem_of_fmap. setoid_rewrite list_elem_of_filter.
  setoid_rewrite elem_of_elements. split.
  - intros (i & -> & (? & ?) & ?). eauto 10.
  - intros (? & i & ? & <- & ?). eauto 10.
Qed.

Lemma filter_answers (image_ids : gset string) (w : World) :
  selected_directories self ≠ ∅ → image_ids ≠ ∅ → next_outcome w = Answers →
  filter_by_directory_scope self image_ids w
  = (Returned (image_ids ∩ items_in_scope self),
     after_access (filter_query self image_ids) w).
Proof.
  intros H1 H2 Ho. unfold filter_by_directory_scope.
  rewrite decide_False by (by intros [?|?]).
  rewrite bind_run. unfold execute. rewrite Ho, ret_run.
  by rewrite <- select_filtered_meets_scope.
Qed.

Lemma filter_fails (image_ids : gset string) (e : string) (w : World) :
  selected_directories self ≠ ∅ → image_ids ≠ ∅ → next_outcome w = Fails e →
  filter_by_directory_scope self image_ids w
  = (Returned ∅, after_failure (filter_query self image_ids) (filter_report e) w).
Proof.
  intros H1 H2 Ho. unfold filter_by_directory_scope.
  rewrite decide_False by (by intros [?|?]).
  rewrite bind_run. unfold execute. by rewrite Ho.
Qed.

(** What [filter_by_directory_scope] returns, by its guard. With an
    empty scope, or an empty set of ids, the ids come back as they are
    and the store is not accessed. With a scope, when the access
    answers, the result is the given ids that are in scope. *)
Theorem filter_by_directory_scope_spec (image_ids : gset string) (w : World) :
  (selected_directories self = ∅ ∨ image_ids = ∅ →
     filter_by_directory_scope self image_ids w = (Returned image_ids, w))
  ∧ (selected_directories self ≠ ∅ → next_outcome w = Answers →
     fst (filter_by_directory_scope self image_ids w)
     = Returned (image_ids ∩ items_in_scope self)).
Proof.
  split; [apply filter_no_scope|]. intros Hne Ho.
  destruct (decide (image_ids = ∅)) as [->|Hi].
  - rewrite filter_no_scope by auto. simpl. f_equal. set_solver.
  - by rewrite filter_answers.
Qed.

Lemma select_by_tag_lower (d : Database) (t1 t2 : string) (ps : list string) :
  Sqlite.lower t1 = Sqlite.lower t2 → select_by_tag d t1 ps = select_by_tag d t2 ps.
Proof. intros H. unfold select_by_tag. by rewrite H. Qed.

(** Tag matching ignores the case of the letters A-Z: two tag names
    that differ in the case of these letters at most give
    [evaluate (TagNode _)] the same value; and when the access
    answers, the value holds exactly the items in scope carrying a tag
    whose stored name is the queried one up to the case of A-Z. *)
Theorem tag_match_ignores_case (t1 t2 : string) (w : World) :
  equal_up_to_case t1 t2 = true →
  fst (evaluate self (TagNode t1) w) = fst (evaluate self (TagNode t2) w)
  ∧ (next_outcome w = Answers →
     ∃ r, fst (evaluate self (TagNode t1) w) = Returned r
          ∧ ∀ x, x ∈ r ↔
              ∃ it t i, it ∈ image_tags (db self) ∧ t ∈ tags (db self)
                        ∧ i ∈ images (db self)
                        ∧ it_image_id it = x
                        ∧ it_tag_id it = tags_id t
                        ∧ it_image_id it = images_id i
                        ∧ equal_up_to_case (tags_name t) t1 = true
                        ∧ dir_where_clause (dir_params (selected_directories self))
                                           (images_path i) = true).
Proof.
  intros Hc. apply equal_up_to_case_lower in Hc. split.
  - simpl. destruct (decide (selected_directories self = ∅)) as [H|H].
    + by rewrite !by_tag_no_scope.
    + destruct (next_outcome w) as [|e] eqn:Ho.
      * rewrite !by_tag_answers by done. simpl. unfold items_with_tag. simpl.
        by rewrite (select_by_tag_lower _ _ _ _ Hc).
      * by rewrite !(by_tag_fails self _ e).
  - intros Ho. exists (items_with_tag self t1). split.
    + simpl. by apply by_tag_value_answers.
    + intros x. rewrite elem_of_items_with_tag.
      by setoid_rewrite equal_up_to_case_lower.
Qed.

End MoreClaims.

(** ** The properties at concrete inputs *)

(** The scenario of the specification: [cat OR dog], [NOT cat] and
    [all] with [/a] selected. *)
Example scenario_cat_or_dog :
  fst (evaluate Scenario.ev (OrNode (TagNode "cat") (TagNode "dog")) Scenario.fresh)
  = Returned {["1"; "2"]}.
Proof. vm_compute. reflexivity. Qed.

Example scenario_not_cat :
  fst (evaluate Scenario.ev (NotNode (TagNode "cat")) Scenario.fresh) = Returned {["2"]}.
Proof. vm_compute. reflexivity. Qed.

Example scenario_all :
  fst (evaluate Scenario.ev AllImagesNode Scenario.fresh) = Returned {["1"; "2"]}.
Proof. vm_compute. reflexivity. Qed.

(** One access per lookup: [NOT cat] makes two, each for a SELECT
    with one pattern for the one selected directory. *)
Example scenario_not_cat_accesses :
  issued (snd (evaluate Scenario.ev (NotNode (TagNode "cat")) Scenario.fresh))
  = [SelectAll ["/a/%"]; SelectByTag "cat" ["/a/%"]].
Proof. vm_compute. reflexivity. Qed.

(** C7, at the failing input. The directory [/a%] is selected; the
    parameter bound to [path LIKE ?] is [/a%/%], whose first [%] SQLite
    reads as a wildcard: the image at [/a%b/x], in a sibling directory
    that shares the leading string [/a%], is returned as in scope. *)
Theorem percent_in_directory_matches_sibling (normalize_path : string → string) :
  normalize_path "/a%" = "/a%" →
  let self := init normalize_path Scenario.percent_db ["/a%"] in
  dir_params (selected_directories self) = ["/a%/%"]
  ∧ startswith "/a%" "/a%b/x" = true
  ∧ startswith (with_separator "/a%") "/a%b/x" = false
  ∧ fst (get_all_image_ids_in_scope self Scenario.fresh) = Returned {["9"]}
  ∧ fst (evaluate self AllImagesNode Scenario.fresh) = Returned {["9"]}.
Proof.
  intros H self.
  assert (selected_directories self = {["/a%"]}) as Hs
    by (subst self; simpl; rewrite H; set_solver).
  assert (dir_params (selected_directories self) = ["/a%/%"]) as Hp
    by (rewrite Hs; unfold dir_params; by rewrite elements_singleton).
  assert (selected_directories self ≠ ∅) as Hne by (rewrite Hs; set_solver).
  split; [done|]. split; [done|]. split; [done|].
  simpl. rewrite all_answers by done. simpl. unfold items_in_scope.
  rewrite Hp. split; f_equal; set_solver.
Qed.

Lemma percent_in_directory_witness :
  fst (evaluate (init id Scenario.percent_db ["/a%"]) AllImagesNode Scenario.fresh)
  = Returned {["9"]}.
Proof. apply (percent_in_directory_matches_sibling id). reflexivity. Defined.

Lemma evaluate_subset_of_scope_witness : ({["2"]} : gset string) ⊆ {["1"; "2"]}.
Proof.
  apply (evaluate_subset_of_scope Scenario.ev (NotNode (TagNode "cat"))
           Scenario.fresh Scenario.fresh).
  - vm_compute. reflexivity.
  - reflexivity.
  - vm_compute. reflexivity.
Defined.

Lemma empty_scope_witness :
  evaluate Scenario.no_scope (NotNode AllImagesNode) Scenario.locked
  = (Returned ∅, Scenario.locked).
Proof. apply empty_scope_evaluates_to_empty; reflexivity. Defined.

Lemma not_is_complement_witness :
  evaluate Scenario.ev (NotNode (TagNode "bird")) Scenario.fresh
  = (Returned (items_in_scope Scenario.ev ∖ ∅),
     after_access (by_tag_query Scenario.ev "bird")
       (after_access (all_query Scenario.ev) Scenario.fresh))
  ∧ items_in_scope Scenario.ev = {["1"; "2"]}
  ∧ all_items (db Scenario.ev) = {["1"; "2"; "3"]}.
Proof.
  split; [|split].
  - apply (not_is_complement_in_scope Scenario.ev (TagNode "bird") Scenario.fresh
             (after_access (all_query Scenario.ev) Scenario.fresh)).
    + vm_compute. reflexivity.
    + vm_compute. reflexivity.
  - vm_compute. reflexivity.
  - vm_compute. reflexivity.
Defined.

Lemma and_short_circuit_witness :
  evaluate Scenario.ev (AndNode (TagNode "bird") (UnknownNode "<class 'int'>")) Scenario.fresh
  = (Returned ∅, after_access (by_tag_query Scenario.ev "bird") Scenario.fresh).
Proof.
  apply (and_intersects_and_short_circuits Scenario.ev (TagNode "bird")
           (UnknownNode "<class 'int'>") Scenario.fresh
           (after_access (by_tag_query Scenario.ev "bird") Scenario.fresh) ∅).
  - vm_compute. reflexivity.
  - reflexivity.
Defined.

Lemma failed_lookup_witness :
  evaluate Scenario.ev (OrNode (TagNode "cat") (TagNode "dog")) Scenario.locked
  = (Returned {["2"]},
     {| pending := [];
        issued := [by_tag_query Scenario.ev "cat"; by_tag_query Scenario.ev "dog"];
        stdout := ["Database error getting images by tag 'cat' within scope: database is locked"]
     |}).
Proof.
  apply (failed_lookup_degrades_to_empty Scenario.ev "cat" "database is locked" Scenario.locked).
  - vm_compute. discriminate.
  - reflexivity.
  - vm_compute. reflexivity.
Defined.

(** C6, at the failing input. With no directory selected the ids
    handed to [filter_by_directory_scope] come back unchanged, although
    none of them is within a selected directory: the result is neither
    empty nor the intersection with the items in scope, which the
    docstring of the method and the two other lookups stand for. *)
Lemma filter_with_empty_scope_keeps_ids :
  fst (filter_by_directory_scope Scenario.no_scope {["3"]} Scenario.fresh) = Returned {["3"]}
  ∧ ({["3"]} ∩ items_in_scope Scenario.no_scope : gset string) = ∅
  ∧ fst (filter_by_directory_scope Scenario.no_scope {["3"]} Scenario.fresh)
    ≠ Returned ({["3"]} ∩ items_in_scope Scenario.no_scope).
Proof.
  split; [|split].
  - vm_compute. reflexivity.
  - vm_compute. reflexivity.
  - vm_compute. discriminate.
Qed.

Lemma filter_by_directory_scope_witness :
  fst (filter_by_directory_scope Scenario.ev {["1"; "3"]} Scenario.fresh)
  = Returned ({["1"; "3"]} ∩ items_in_scope Scenario.ev).
Proof.
  apply (filter_by_directory_scope_spec Scenario.ev {["1"; "3"]} Scenario.fresh).
  - vm_compute. discriminate.
  - reflexivity.
Defined.

Lemma double_negation_witness :
  fst (evaluate Scenario.ev (NotNode (NotNode (TagNode "cat"))) Scenario.fresh)
  = fst (evaluate Scenario.ev (TagNode "cat") Scenario.fresh).
Proof. apply (double_negation Scenario.ev (TagNode "cat") Scenario.fresh). apply Forall_nil_2. Defined.

(** The letters A-Z are letters: names equal up to their case differ
    only in letter case. *)
Lemma equal_up_to_case_differ_only (s1 s2 : string) :
  equal_up_to_case s1 s2 = true → differ_only_in_case s1 s2 = true.
Proof.
  assert (K : ∀ a, forallb (λ b, implb (same_letter a b) (same_letter_any_case a b))
                     all_ascii = true).
  { apply (for_all_ascii (λ a, forallb (λ b,
      implb (same_letter a b) (same_letter_any_case a b)) all_ascii)).
    vm_compute. reflexivity. }
  assert (H : ∀ a b, same_letter a b = true → same_letter_any_case a b = true).
  { intros a b Hs. pose proof (for_all_ascii _ (K a) b) as Hb. simpl in Hb.
    by rewrite Hs in Hb. }
  revert s2. induction s1 as [|c1 s1 IH]; intros [|c2 s2] E; simpl in *; try done.
  apply andb_prop in E as [Ec E]. by rewrite (H _ _ Ec), IH.
Qed.

(** C9, at the failing input. The tag names [É] and [é] differ only
    in letter case, and yet an image tagged [é] is found under [é] and
    not under [É]: the [lower] of the statement, announced by its
    comment as a case-insensitive search, leaves accented letters
    alone. *)
Lemma accented_tag_case_is_not_ignored :
  differ_only_in_case Scenario.e_acute_upper Scenario.e_acute_lower = true
  ∧ fst (evaluate Scenario.accent_ev (TagNode Scenario.e_acute_lower) Scenario.fresh)
    = Returned {["1"]}
  ∧ fst (evaluate Scenario.accent_ev (TagNode Scenario.e_acute_upper) Scenario.fresh)
    = Returned ∅
  ∧ fst (evaluate Scenario.accent_ev (TagNode Scenario.e_acute_upper) Scenario.fresh)
    ≠ fst (evaluate Scenario.accent_ev (TagNode Scenario.e_acute_lower) Scenario.fresh).
Proof.
  split; [|split; [|split]].
  - reflexivity.
  - vm_compute. reflexivity.
  - vm_compute. reflexivity.
  - vm_compute. discriminate.
Qed.

Lemma tag_match_ignores_case_witness :
  fst (evaluate Scenario.ev (TagNode "CaT") Scenario.fresh)
  = fst (evaluate Scenario.ev (TagNode "cat") Scenario.fresh).
Proof. apply (tag_match_ignores_case Scenario.ev "CaT" "cat" Scenario.fresh). reflexivity. Defined.

(** ** The evaluator as set algebra *)

Section Algebra.
Variable self : SearchQueryEvaluator.

Lemma denote_in_scope (node : ASTNode) : denote self node ⊆ items_in_scope self.
Proof.
  induction node; simpl; try set_solver. apply items_with_tag_in_scope.
Qed.

(** When the store answers every access, [evaluate] on a tree of the
    six classes returns the set [denote] gives for it, the short cut of
    [AndNode] included, and the store still answers afterwards. *)
Lemma evaluate_denote_run (node : ASTNode) :
  six_variants node = true →
  ∀ w, healthy w → ∃ w', evaluate self node w = (Returned (denote self node), w') ∧ healthy w'.
Proof.
  induction node as [tag| |l IHl r IHr|l IHl r IHr|n IHn|n IHn|ty]; intros Hs w Hh; simpl in *.
  - destruct (by_tag_world self tag w) as (x & w' & E & Hw).
    pose proof (by_tag_value_answers self tag w (healthy_next _ Hh)) as V.
    rewrite E in V. injection V as ->. exists w'. split; [done|]. by eapply one_access_healthy.
  - destruct (all_world self w) as (x & w' & E & Hw).
    pose proof (all_value_answers self w (healthy_next _ Hh)) as V.
    rewrite E in V. injection V as ->. exists w'. split; [done|]. by eapply one_access_healthy.
  - apply andb_prop in Hs as [Hl Hr]. destruct (IHl Hl w Hh) as (w1 & El & H1).
    rewrite bind_run, El. case_decide as HL.
    + exists w1. split; [|done]. rewrite ret_run, HL. f_equal. f_equal. set_solver.
    + destruct (IHr Hr w1 H1) as (w2 & Er & H2). rewrite bind_run, Er. eauto.
  - apply andb_prop in Hs as [Hl Hr]. destruct (IHl Hl w Hh) as (w1 & El & H1).
    destruct (IHr Hr w1 H1) as (w2 & Er & H2). rewrite bind_run, El, bind_run, Er. eauto.
  - destruct (all_world self w) as (x & w1 & E & Hw).
    pose proof (all_value_answers self w (healthy_next _ Hh)) as V.
    rewrite E in V. injection V as ->.
    destruct (IHn Hs w1 (one_access_healthy self _ _ Hw Hh)) as (w2 & En & H2).
    rewrite bind_run, E, bind_run, En. eauto.
  - eauto.
  - done.
Qed.

Lemma evaluate_denote_value (node : ASTNode) (w : World) :
  six_variants node = true → healthy w →
  fst (evaluate self node w) = Returned (denote self node).
Proof.
  intros Hs Hh. destruct (evaluate_denote_run node Hs w Hh) as (w' & E & _). by rewrite E.
Qed.

(** X1. Functional correctness: in a world whose store answers, the
    value of [evaluate] on a tree of the six classes is the set algebra
    of the tree over the rows of the leaf statements. *)
Theorem evaluate_is_set_algebra (node : ASTNode) (w : World) :
  six_variants node = true → healthy w →
  fst (evaluate self node w) = Returned (denote self node).
Proof.
  intros Hs Hh. destruct (evaluate_denote_run node Hs w Hh) as (w' & E & _). by rewrite E.
Qed.

(** X2. [AndNode] is commutative in its value although only its left
    operand can cut the evaluation short. *)
Theorem and_commutes (a b : ASTNode) (w : World) :
  six_variants a = true → six_variants b = true → healthy w →
  fst (evaluate self (AndNode a b) w) = fst (evaluate self (AndNode b a) w).
Proof.
  intros Ha Hb Hh.
  rewrite !evaluate_denote_value by (simpl; rewrite ?Ha, ?Hb; done).
  simpl. f_equal. set_solver.
Qed.

(** X3. [OrNode] is commutative in its value. *)
Theorem or_commutes (a b : ASTNode) (w : World) :
  six_variants a = true → six_variants b = true → healthy w →
  fst (evaluate self (OrNode a b) w) = fst (evaluate self (OrNode b a) w).
Proof.
  intros Ha Hb Hh.
  rewrite !evaluate_denote_value by (simpl; rewrite ?Ha, ?Hb; done).
  simpl. f_equal. set_solver.
Qed.

(** X4. De Morgan: [NOT (a OR b)] is [NOT a AND NOT b], and
    [NOT (a AND b)] is [NOT a OR NOT b]. *)
Theorem de_morgan (a b : ASTNode) (w : World) :
  six_variants a = true → six_variants b = true → healthy w →
  fst (evaluate self (NotNode (OrNode a b)) w)
  = fst (evaluate self (AndNode (NotNode a) (NotNode b)) w)
  ∧ fst (evaluate self (NotNode (AndNode a b)) w)
    = fst (evaluate self (OrNode (NotNode a) (NotNode b)) w).
Proof.
  intros Ha Hb Hh.
  rewrite !evaluate_denote_value by (simpl; rewrite ?Ha, ?Hb; done).
  simpl. split; f_equal.
  - set_solver.
  - apply set_eq. intros x. rewrite elem_of_union, !elem_of_difference, elem_of_intersection.
    split; [|naive_solver]. intros [Hx Hn].
    destruct (decide (x ∈ denote self a)); [|by left].
    right. split; [done|]. intros ?. by apply Hn.
Qed.

(** X5. A tree and its negation split the scope: their [OrNode] is
    everything in scope, their [AndNode] is empty. *)
Theorem complement_laws (a : ASTNode) (w : World) :
  six_variants a = true → healthy w →
  fst (evaluate self (OrNode a (NotNode a)) w) = fst (evaluate self AllImagesNode w)
  ∧ fst (evaluate self (AndNode a (NotNode a)) w) = Returned ∅.
Proof.
  intros Ha Hh.
  rewrite !evaluate_denote_value by (simpl; rewrite ?Ha; done).
  simpl. pose proof (denote_in_scope a) as Hin. split; f_equal.
  - apply set_eq. intros x. rewrite elem_of_union, elem_of_difference.
    split; [set_solver|]. intros Hx. destruct (decide (x ∈ denote self a)); auto.
  - set_solver.
Qed.

(** X6. Without [NotNode] in the tree, failed accesses can only lose
    items: whatever the store does, the value of [evaluate] is within
    the value it has when the store answers. *)
Theorem failures_only_lose_items (node : ASTNode) (w w' : World) (r : gset string) :
  not_free node = true →
  evaluate self node w = (Returned r, w') →
  r ⊆ denote self node.
Proof.
  revert w w' r.
  induction node as [tag| |l IHl r IHr|l IHl r IHr|n IHn|n IHn|ty]; intros w w' res Hn E;
    simpl in *.
  - destruct (by_tag_returns self tag w) as (x & w1 & Ex & Hx). rewrite Ex in E.
    by injection E as <- _.
  - destruct (all_returns self w) as (x & w1 & Ex & Hx). rewrite Ex in E.
    by injection E as <- _.
  - apply andb_prop in Hn as [Hl Hr]. rewrite bind_run in E.
    destruct (evaluate self l w) as [[L|e] w1] eqn:El; [|done].
    case_decide.
    + injection E as <- _. set_solver.
    + rewrite bind_run in E. destruct (evaluate self r w1) as [[R|e] w2] eqn:Er; [|done].
      injection E as <- _. specialize (IHl _ _ _ Hl El). specialize (IHr _ _ _ Hr Er).
      set_solver.
  - apply andb_prop in Hn as [Hl Hr]. rewrite bind_run in E.
    destruct (evaluate self l w) as [[L|e] w1] eqn:El; [|done].
    rewrite bind_run in E. destruct (evaluate self r w1) as [[R|e] w2] eqn:Er; [|done].
    injection E as <- _. specialize (IHl _ _ _ Hl El). specialize (IHr _ _ _ Hr Er).
    set_solver.
  - done.
  - eauto.
  - done.
Qed.

(** X7. Under a [NotNode] a failed access adds items or removes them
    all: when the lookup of the node itself fails the value is empty
    whatever the inner tree returns, and when the lookup of an inner
    [TagNode] fails the value is every item in scope, tagged or not. *)
Theorem not_under_failure (tag e : string) (w : World) :
  selected_directories self ≠ ∅ →
  (next_outcome w = Fails e →
   ∀ n E w2, evaluate self n (after_failure (all_query self) (all_report e) w)
             = (Returned E, w2) →
             evaluate self (NotNode n) w = (Returned ∅, w2))
  ∧ (next_outcome w = Answers →
     next_outcome (after_access (all_query self) w) = Fails e →
     fst (evaluate self (NotNode (TagNode tag)) w) = Returned (items_in_scope self)).
Proof.
  intros Hne. split.
  - intros Ho n E w2 En. simpl. rewrite bind_run, (all_fails self e) by done.
    rewrite bind_run, En, ret_run. f_equal. f_equal. set_solver.
  - intros Ho Ho1. simpl. rewrite bind_run, all_answers by done.
    rewrite bind_run, (by_tag_fails self tag e) by done.
    rewrite ret_run. simpl. f_equal. set_solver.
Qed.

End Algebra.

(** ** Statements sent, outcomes consumed, lines printed *)

Lemma failures_app (os1 os2 : list outcome) :
  failures (os1 ++ os2) = failures os1 + failures os2.
Proof. induction os1 as [|[|e] os1 IH]; simpl; lia. Qed.

Lemma take_add_drop {A} (k1 k2 : nat) (l : list A) :
  take (k1 + k2) l = take k1 l ++ take k2 (drop k1 l).
Proof.
  revert l. induction k1 as [|k1 IH]; intros [|x l]; simpl; try done.
  - by rewrite take_nil.
  - by rewrite IH.
Qed.

Lemma accounted_refl (w : World) : accounted w w [].
Proof.
  unfold accounted. simpl. rewrite app_nil_r. repeat split.
  exists []. by rewrite app_nil_r.
Qed.

Lemma accounted_trans (w w1 w2 : World) (qs1 qs2 : list Query) :
  accounted w w1 qs1 → accounted w1 w2 qs2 → accounted w w2 (qs1 ++ qs2).
Proof.
  intros (I1 & P1 & l1 & S1 & F1) (I2 & P2 & l2 & S2 & F2). unfold accounted.
  rewrite length_app. split; [|split].
  - by rewrite I2, I1, app_assoc.
  - by rewrite P2, P1, drop_drop.
  - exists (l1 ++ l2). split.
    + by rewrite S2, S1, app_assoc.
    + rewrite length_app, take_add_drop, failures_app, F1, F2. by rewrite P1.
Qed.

Lemma accounted_answer (q : Query) (w : World) :
  next_outcome w = Answers → accounted w (after_access q w) [q].
Proof.
  intros Ho. unfold accounted, after_access. simpl. split; [done|]. split.
  - by destruct (pending w).
  - exists []. rewrite app_nil_r. split; [done|].
    unfold next_outcome in Ho. destruct (pending w) as [|o os]; [done|]. by subst o.
Qed.

Lemma accounted_failure (q : Query) (line e : string) (w : World) :
  next_outcome w = Fails e → accounted w (after_failure q line w) [q].
Proof.
  intros Ho. unfold accounted, after_failure. simpl. split; [done|]. split.
  - by destruct (pending w).
  - exists [line]. split; [done|].
    unfold next_outcome in Ho. destruct (pending w) as [|o os]; [done|]. by subst o.
Qed.

Section Traces.
Variable self : SearchQueryEvaluator.

Lemma by_tag_trace (tag : string) (w : World) :
  ∃ r w' qs, get_image_ids_by_tag self tag w = (Returned r, w')
             ∧ accounted w w' qs
             ∧ (selected_directories self = ∅ ∧ qs = []
                ∨ selected_directories self ≠ ∅ ∧ qs = [by_tag_query self tag]).
Proof.
  destruct (decide (selected_directories self = ∅)) as [H|H].
  - eexists _, _, []. split; [by apply by_tag_no_scope|]. split; [apply accounted_refl|auto].
  - destruct (next_outcome w) as [|e] eqn:Ho.
    + eexists _, _, _. split; [by apply by_tag_answers|].
      split; [by apply accounted_answer|auto].
    + eexists _, _, _. split; [by apply by_tag_fails|].
      split; [by eapply accounted_failure|auto].
Qed.

Lemma all_trace (w : World) :
  ∃ r w' qs, get_all_image_ids_in_scope self w = (Returned r, w')
             ∧ accounted w w' qs
             ∧ (selected_directories self = ∅ ∧ qs = []
                ∨ selected_directories self ≠ ∅ ∧ qs = [all_query self]).
Proof.
  destruct (decide (selected_directories self = ∅)) as [H|H].
  - eexists _, _, []. split; [by apply all_no_scope|]. split; [apply accounted_refl|auto].
  - destruct (next_outcome w) as [|e] eqn:Ho.
    + eexists _, _, _. split; [by apply all_answers|].
      split; [by apply accounted_answer|auto].
    + eexists _, _, _. split; [by apply all_fails|].
      split; [by eapply accounted_failure|auto].
Qed.

Lemma from_tree_weaken (n m : ASTNode) (qs : list Query) :
  tags_of n ⊆ tags_of m → Forall (from_tree self n) qs → Forall (from_tree self m) qs.
Proof.
  intros Hsub HF. eapply Forall_impl; [done|]. intros q [->|(tag & Ht & ->)]; [by left|].
  right. exists tag. split; [by apply Hsub|done].
Qed.

Lemma evaluate_trace (node : ASTNode) :
  ∀ w x w', evaluate self node w = (x, w') →
            ∃ qs, accounted w w' qs ∧ length qs ≤ lookups node ∧ Forall (from_tree self node) qs.
Proof.
  induction node as [tag| |l IHl r IHr|l IHl r IHr|n IHn|n IHn|ty]; intros w x w' E; simpl in E.
  - destruct (by_tag_trace tag w) as (res & w1 & qs & Ex & Ha & Hq).
    rewrite Ex in E. injection E as _ <-. exists qs. split; [done|].
    destruct Hq as [[_ ->]|[_ ->]]; simpl; (split; [lia|]); [apply Forall_nil_2|].
    apply Forall_singleton. right. exists tag. split; [set_solver|done].
  - destruct (all_trace w) as (res & w1 & qs & Ex & Ha & Hq).
    rewrite Ex in E. injection E as _ <-. exists qs. split; [done|].
    destruct Hq as [[_ ->]|[_ ->]]; simpl; (split; [lia|]); [apply Forall_nil_2|].
    apply Forall_singleton. by left.
  - rewrite bind_run in E. destruct (evaluate self l w) as [[L|e] w1] eqn:El.
    + destruct (IHl _ _ _ El) as (q1 & A1 & L1 & F1).
      assert (Forall (from_tree self (AndNode l r)) q1) as F1'
        by (eapply from_tree_weaken; [|done]; simpl; set_solver).
      case_decide.
      * injection E as _ <-. exists q1. simpl. split; [done|]. split; [lia|done].
      * rewrite bind_run in E. destruct (evaluate self r w1) as [[R|e] w2] eqn:Er;
          injection E as _ <-; destruct (IHr _ _ _ Er) as (q2 & A2 & L2 & F2);
          exists (q1 ++ q2); (split; [by eapply accounted_trans|]); rewrite length_app;
          simpl; (split; [lia|]); apply Forall_app; (split; [done|]);
          (eapply from_tree_weaken; [|done]); simpl; set_solver.
    + injection E as _ <-. destruct (IHl _ _ _ El) as (q1 & A1 & L1 & F1).
      exists q1. simpl. split; [done|]. split; [lia|].
      eapply from_tree_weaken; [|done]. simpl. set_solver.
  - rewrite bind_run in E. destruct (evaluate self l w) as [[L|e] w1] eqn:El.
    + destruct (IHl _ _ _ El) as (q1 & A1 & L1 & F1).
      assert (Forall (from_tree self (OrNode l r)) q1) as F1'
        by (eapply from_tree_weaken; [|done]; simpl; set_solver).
      rewrite bind_run in E. destruct (evaluate self r w1) as [[R|e] w2] eqn:Er;
        injection E as _ <-; destruct (IHr _ _ _ Er) as (q2 & A2 & L2 & F2);
        exists (q1 ++ q2); (split; [by eapply accounted_trans|]); rewrite length_app;
        simpl; (split; [lia|]); apply Forall_app; (split; [done|]);
        (eapply from_tree_weaken; [|done]); simpl; set_solver.
    + injection E as _ <-. destruct (IHl _ _ _ El) as (q1 & A1 & L1 & F1).
      exists q1. simpl. split; [done|]. split; [lia|].
      eapply from_tree_weaken; [|done]. simpl. set_solver.
  - rewrite bind_run in E.
    destruct (all_trace w) as (U & w1 & q1 & EU & A1 & Hq). rewrite EU in E.
    assert (length q1 ≤ 1 ∧ Forall (from_tree self (NotNode n)) q1) as [L1 F1].
    { destruct Hq as [[_ ->]|[_ ->]]; simpl; (split; [lia|]); [apply Forall_nil_2|].
      apply Forall_singleton. by left. }
    rewrite bind_run in E. destruct (evaluate self n w1) as [[R|e] w2] eqn:En;
      injection E as _ <-; destruct (IHn _ _ _ En) as (q2 & A2 & L2 & F2);
      exists (q1 ++ q2); (split; [by eapply accounted_trans|]); rewrite length_app;
      simpl; (split; [lia|]); apply Forall_app; (split; [done|]); done.
  - destruct (IHn _ _ _ E) as (qs & ? & ? & ?). eauto.
  - injection E as _ <-. exists []. split; [apply accounted_refl|]. simpl. split; [lia|done].
Qed.

(** X8. Whatever the tree and the store, and whether [evaluate]
    returns or raises: the accesses its lookups made extend [issued] in
    order, each met exactly one outcome of the store, and exactly one
    line was printed per access that failed, and nothing else. *)
Theorem evaluate_is_accounted (node : ASTNode) (w w' : World) (x : result (gset string)) :
  evaluate self node w = (x, w') →
  ∃ qs lines,
    issued w' = issued w ++ qs
    ∧ pending w' = drop (length qs) (pending w)
    ∧ stdout w' = stdout w ++ lines
    ∧ length lines = failures (take (length qs) (pending w)).
Proof.
  intros E. destruct (evaluate_trace node _ _ _ E) as (qs & (I & P & lines & S & F) & _).
  by exists qs, lines.
Qed.

(** X9. [evaluate] never makes more accesses, each one connection,
    than the tree has [TagNode]s, [AllImagesNode]s and [NotNode]s,
    whatever the number of images, tags and selected directories. *)
Theorem accesses_bounded_by_tree (node : ASTNode) (w w' : World) (x : result (gset string)) :
  evaluate self node w = (x, w') →
  length (issued w') ≤ length (issued w) + lookups node.
Proof.
  intros E. destruct (evaluate_trace node _ _ _ E) as (qs & (I & _) & L & _).
  rewrite I, length_app. lia.
Qed.

(** X10. Every access [evaluate] makes is the one of
    [get_all_image_ids_in_scope] or the one of [get_image_ids_by_tag]
    for a tag written in the tree, and the SELECT it is for carries one
    LIKE pattern per selected directory. No access is one of
    [filter_by_directory_scope]. *)
Theorem accesses_come_from_tree (node : ASTNode) (w w' : World) (x : result (gset string))
    (q : Query) :
  evaluate self node w = (x, w') →
  q ∈ issued w' →
  q ∈ issued w
  ∨ (q = SelectAll (dir_params (selected_directories self))
     ∨ ∃ tag, tag ∈ tags_of node
              ∧ q = SelectByTag tag (dir_params (selected_directories self)))
    ∧ length (dir_params (selected_directories self)) = size (selected_directories self).
Proof.
  intros E Hq. destruct (evaluate_trace node _ _ _ E) as (qs & (I & _) & _ & F).
  rewrite I in Hq. apply elem_of_app in Hq as [?|Hq]; [by left|]. right.
  split; [|apply dir_params_length].
  rewrite Forall_forall in F. apply F in Hq. exact Hq.
Qed.

Lemma full_walk (node : ASTNode) :
  selected_directories self ≠ ∅ → six_variants node = true → and_free node = true →
  ∀ w x w', evaluate self node w = (x, w') →
            (∃ r, x = Returned r) ∧ length (issued w') = length (issued w) + lookups node.
Proof.
  intros Hne.
  induction node as [tag| |l IHl r IHr|l IHl r IHr|n IHn|n IHn|ty]; intros Hs Hf w x w' E;
    simpl in *.
  - destruct (by_tag_trace tag w) as (res & w1 & qs & Ex & (I & _) & [[? _]|[_ ->]]); [done|].
    rewrite Ex in E. injection E as <- <-. split; [eauto|]. rewrite I, length_app. simpl. lia.
  - destruct (all_trace w) as (res & w1 & qs & Ex & (I & _) & [[? _]|[_ ->]]); [done|].
    rewrite Ex in E. injection E as <- <-. split; [eauto|]. rewrite I, length_app. simpl. lia.
  - done.
  - apply andb_prop in Hs as [Hsl Hsr]. apply andb_prop in Hf as [Hfl Hfr].
    rewrite bind_run in E. destruct (evaluate self l w) as [xl w1] eqn:El.
    destruct (IHl Hsl Hfl _ _ _ El) as [[L ->] Il].
    rewrite bind_run in E. destruct (evaluate self r w1) as [xr w2] eqn:Er.
    destruct (IHr Hsr Hfr _ _ _ Er) as [[R ->] Ir].
    injection E as <- <-. split; [eauto|]. lia.
  - rewrite bind_run in E.
    destruct (all_trace w) as (U & w1 & qs & EU & (I & _) & [[? _]|[_ ->]]); [done|].
    rewrite EU in E. rewrite bind_run in E. destruct (evaluate self n w1) as [xn w2] eqn:En.
    destruct (IHn Hs Hf _ _ _ En) as [[R ->] In'].
    injection E as <- <-. split; [eauto|]. rewrite In', I, length_app. simpl. lia.
  - eauto.
  - done.
Qed.

(** X11. With a scope, a tree of the six classes without [AndNode]
    is walked in full: [evaluate] returns a set after making exactly
    one access per [TagNode], [AllImagesNode] and [NotNode], also when
    accesses fail. *)
Theorem walk_without_and_is_full (node : ASTNode) (w w' : World) (x : result (gset string)) :
  selected_directories self ≠ ∅ → six_variants node = true → and_free node = true →
  evaluate self node w = (x, w') →
  (∃ r, x = Returned r) ∧ length (issued w') = length (issued w) + lookups node.
Proof. intros Hne Hs Hf E. by eapply full_walk. Qed.

End Traces.

(** ** [filter_by_directory_scope] and the other methods *)

Section Filtering.
Variable self : SearchQueryEvaluator.

Lemma filter_cases (image_ids : gset string) (w : World) :
  ∃ r w', filter_by_directory_scope self image_ids w = (Returned r, w')
          ∧ (r = image_ids ∨ r = image_ids ∩ items_in_scope self ∨ r = ∅).
Proof.
  destruct (decide (selected_directories self = ∅ ∨ image_ids = ∅)) as [H|H].
  - eexists _, _. split; [by apply filter_no_scope|]. auto.
  - assert (selected_directories self ≠ ∅ ∧ image_ids ≠ ∅) as [H1 H2] by (split; intros ?; auto).
    destruct (next_outcome w) as [|e] eqn:Ho.
    + eexists _, _. split; [by apply filter_answers|]. auto.
    + eexists _, _. split; [by apply filter_fails|]. auto.
Qed.

(** X12. [filter_by_directory_scope] always returns a set, it never
    raises, and the set is a subset of the ids it was given, whatever
    the scope and whatever the store does. *)
Theorem filter_never_adds (image_ids : gset string) (w : World) :
  ∃ r w', filter_by_directory_scope self image_ids w = (Returned r, w') ∧ r ⊆ image_ids.
Proof.
  destruct (filter_cases image_ids w) as (r & w' & E & Hr).
  exists r, w'. split; [done|]. destruct Hr as [->|[->| ->]]; set_solver.
Qed.

(** X13. Filtering twice is filtering once: when the store answers,
    [filter_by_directory_scope] returns its own result unchanged. *)
Theorem filter_idempotent (image_ids r : gset string) (w w' w2 : World) :
  next_outcome w = Answers → next_outcome w2 = Answers →
  filter_by_directory_scope self image_ids w = (Returned r, w') →
  fst (filter_by_directory_scope self r w2) = Returned r.
Proof.
  intros Ho Ho2 E.
  destruct (decide (selected_directories self = ∅)) as [Hs|Hs].
  - by rewrite filter_no_scope by auto.
  - destruct (decide (image_ids = ∅)) as [->|Hi].
    + rewrite filter_no_scope in E by auto. injection E as <- _.
      by rewrite filter_no_scope by auto.
    + rewrite filter_answers in E by done. injection E as <- _.
      destruct (decide (image_ids ∩ items_in_scope self = ∅)) as [He|He].
      * by rewrite filter_no_scope by auto.
      * rewrite filter_answers by done. simpl. f_equal. set_solver.
Qed.

(** X14. What [evaluate] returns is already within the scope:
    [filter_by_directory_scope], when its access answers, hands it
    back unchanged, whatever happened to the accesses of [evaluate]. *)
Theorem filter_after_evaluate (node : ASTNode) (r : gset string) (w w' w2 : World) :
  evaluate self node w = (Returned r, w') →
  next_outcome w2 = Answers →
  fst (filter_by_directory_scope self r w2) = Returned r.
Proof.
  intros E Ho. pose proof (evaluate_in_scope self node _ _ _ E) as Hin.
  destruct (decide (selected_directories self = ∅ ∨ r = ∅)) as [H|H].
  - by rewrite filter_no_scope.
  - assert (selected_directories self ≠ ∅ ∧ r ≠ ∅) as [H1 H2] by (split; intros ?; auto).
    rewrite filter_answers by done.
    simpl. f_equal. set_solver.
Qed.

(** X15. A tag that no stored tag equals up to case is no error: the
    value of its [TagNode] is the empty set in every world. *)
Theorem unknown_tag_is_empty (tag : string) (w : World) :
  (∀ t, t ∈ tags (db self) → equal_up_to_case (tags_name t) tag = false) →
  fst (evaluate self (TagNode tag) w) = Returned ∅.
Proof.
  intros Hno. simpl. destruct (by_tag_returns self tag w) as (r & w' & E & Hr).
  rewrite E. simpl. f_equal. apply (anti_symm (⊆)); [|set_solver].
  intros x Hx. apply Hr in Hx. apply elem_of_items_with_tag in Hx
    as (it & t & i & _ & Ht & _ & _ & _ & _ & Hl & _).
  apply equal_up_to_case_lower in Hl. rewrite Hno in Hl by done. done.
Qed.

End Filtering.

(** ** How the scope composes *)

Lemma dir_where_clause_true (params : list string) (path : string) :
  dir_where_clause params path = true ↔ ∃ p, p ∈ params ∧ Sqlite.like p path = true.
Proof.
  unfold dir_where_clause. rewrite existsb_exists.
  by setoid_rewrite list_elem_of_In.
Qed.

Lemma in_scope_by_directory (dirs : gset string) (path : string) :
  dir_where_clause (dir_params dirs) path = true ↔
  ∃ d, d ∈ dirs ∧ Sqlite.like (dir_param d) path = true.
Proof.
  rewrite dir_where_clause_true. unfold dir_params. split.
  - intros (p & Hp & Hl). apply list_elem_of_fmap in Hp as (d & -> & Hd).
    apply elem_of_elements in Hd. eauto.
  - intros (d & Hd & Hl). exists (dir_param d). split; [|done].
    apply list_elem_of_fmap. exists d. split; [done|]. by apply elem_of_elements.
Qed.

Lemma dir_where_clause_union (dirs1 dirs2 : gset string) (path : string) :
  dir_where_clause (dir_params (dirs1 ∪ dirs2)) path
  = dir_where_clause (dir_params dirs1) path || dir_where_clause (dir_params dirs2) path.
Proof.
  apply eq_true_iff_eq. rewrite orb_true_iff, !in_scope_by_directory.
  setoid_rewrite elem_of_union. naive_solver.
Qed.

Section Scopes.
Variable self : SearchQueryEvaluator.

(** X16. Selecting directories together gives the union of what
    selecting them apart gives, for all the items in scope and for the
    items with a tag: a directory added to the scope never removes an
    item from either. *)
Theorem scope_union (dirs1 dirs2 : gset string) (tag : string) :
  items_in_scope (with_directories self (dirs1 ∪ dirs2))
  = items_in_scope (with_directories self dirs1) ∪ items_in_scope (with_directories self dirs2)
  ∧ items_with_tag (with_directories self (dirs1 ∪ dirs2)) tag
    = items_with_tag (with_directories self dirs1) tag
      ∪ items_with_tag (with_directories self dirs2) tag.
Proof.
  split; apply set_eq; intros x; rewrite elem_of_union.
  - rewrite !elem_of_items_in_scope. simpl. setoid_rewrite dir_where_clause_union.
    setoid_rewrite orb_true_iff. naive_solver.
  - rewrite !elem_of_items_with_tag. simpl. setoid_rewrite dir_where_clause_union.
    setoid_rewrite orb_true_iff. split.
    + intros (it & t & i & ? & ? & ? & ? & ? & ? & ? & [?|?]); [left|right];
        exists it, t, i; repeat split; done.
    + intros [(it & t & i & ? & ? & ? & ? & ? & ? & ? & ?)
             |(it & t & i & ? & ? & ? & ? & ? & ? & ? & ?)];
        exists it, t, i; repeat split; auto.
Qed.

End Scopes.

(** ** What the LIKE patterns of the scope match *)

Lemma same_letter_wildcards (a b : ascii) :
  same_letter a b = true →
  Ascii.eqb a "%" = Ascii.eqb b "%" ∧ Ascii.eqb a "_" = Ascii.eqb b "_"
  ∧ Ascii.eqb a "/" = Ascii.eqb b "/".
Proof.
  assert (H : ∀ a, forallb (λ b, implb (same_letter a b)
                (Bool.eqb (Ascii.eqb a "%") (Ascii.eqb b "%")
                 && Bool.eqb (Ascii.eqb a "_") (Ascii.eqb b "_")
                 && Bool.eqb (Ascii.eqb a "/") (Ascii.eqb b "/"))) all_ascii = true).
  { apply (for_all_ascii (λ a, forallb (λ b, implb (same_letter a b)
                (Bool.eqb (Ascii.eqb a "%") (Ascii.eqb b "%")
                 && Bool.eqb (Ascii.eqb a "_") (Ascii.eqb b "_")
                 && Bool.eqb (Ascii.eqb a "/") (Ascii.eqb b "/"))) all_ascii)).
    vm_compute. reflexivity. }
  intros Hs. pose proof (for_all_ascii _ (H a) b) as Hb. simpl in Hb.
  rewrite Hs in Hb. simpl in Hb.
  apply andb_prop in Hb as [Hb H3]. apply andb_prop in Hb as [H1 H2].
  by rewrite (Bool.eqb_prop _ _ H1), (Bool.eqb_prop _ _ H2), (Bool.eqb_prop _ _ H3).
Qed.

Lemma like_path_case (p s s' : string) :
  equal_up_to_case s s' = true → Sqlite.like p s = Sqlite.like p s'.
Proof.
  revert s s'. induction p as [|c p IH]; intros s s' H.
  - by destruct s, s'.
  - destruct (Ascii.eqb c "%") eqn:Ec.
    + apply Ascii.eqb_eq in Ec as ->. revert s' H.
      induction s as [|a s IHs]; intros [|b s'] H; simpl in H; try done.
      apply andb_prop in H as [Hab H].
      rewrite (like_percent_unfold p (String a s)), (like_percent_unfold p (String b s')).
      f_equal; [|by apply IHs]. apply IH. simpl. by rewrite Hab, H.
    + destruct s as [|a s], s' as [|b s']; simpl in H; try done.
      apply andb_prop in H as [Hab H]. simpl. rewrite Ec.
      destruct (Ascii.eqb c "_"); [by apply IH|].
      rewrite same_letter_tolower in Hab. apply Ascii.eqb_eq in Hab.
      rewrite Hab. f_equal. by apply IH.
Qed.

Lemma like_pattern_case (p p' s : string) :
  equal_up_to_case p p' = true → Sqlite.like p s = Sqlite.like p' s.
Proof.
  revert p' s. induction p as [|c p IH]; intros [|c' p'] s H; simpl in H; try done.
  apply andb_prop in H as [Hc H].
  destruct (same_letter_wildcards _ _ Hc) as (Hp & Hu & _).
  destruct (Ascii.eqb c "%") eqn:Ec.
  - symmetry in Hp. apply Ascii.eqb_eq in Ec as ->. apply Ascii.eqb_eq in Hp as ->.
    induction s as [|a s IHs].
    + rewrite !like_percent_unfold. f_equal. by apply IH.
    + rewrite (like_percent_unfold p), (like_percent_unfold p'). f_equal; [by apply IH|done].
  - simpl. rewrite Ec, <- Hp, <- Hu. destruct (Ascii.eqb c "_").
    + destruct s; [done|]. by apply IH.
    + destruct s as [|a s]; [done|].
      rewrite same_letter_tolower in Hc. apply Ascii.eqb_eq in Hc. rewrite Hc.
      f_equal. by apply IH.
Qed.

Lemma same_letter_refl (c : ascii) : same_letter c c = true.
Proof. rewrite same_letter_tolower. apply Ascii.eqb_refl. Qed.

Lemma equal_up_to_case_app (a a' b b' : string) :
  equal_up_to_case a a' = true → equal_up_to_case b b' = true →
  equal_up_to_case (a +:+ b) (a' +:+ b') = true.
Proof.
  revert a'. induction a as [|c a IH]; intros [|c' a'] Ha Hb; simpl in Ha; try done.
  apply andb_prop in Ha as [Hc Ha]. rewrite !app_cons. simpl. rewrite Hc. by apply IH.
Qed.

Lemma endswith_slash_case (d d' : string) :
  equal_up_to_case d d' = true → endswith_slash d = endswith_slash d'.
Proof.
  revert d'. induction d as [|c d IH]; intros [|c' d'] H; simpl in H; try done.
  apply andb_prop in H as [Hc H]. destruct (same_letter_wildcards _ _ Hc) as (_ & _ & Hs).
  specialize (IH d' H). simpl. destruct d, d'; simpl in H; try done.
Qed.

Lemma dir_param_case (d d' : string) :
  equal_up_to_case d d' = true → equal_up_to_case (dir_param d) (dir_param d') = true.
Proof.
  intros H. unfold dir_param, with_separator. rewrite <- (endswith_slash_case _ _ H).
  destruct (endswith_slash d); repeat apply equal_up_to_case_app; done.
Qed.

(** X17. The scope test does not see the case of the letters A-Z,
    neither in the selected directory nor in the path of the image:
    [/Photos] selects what [/photos] selects, and an image stored
    under [/PHOTOS/] is in the scope of both. *)
Theorem scope_test_ignores_case (d d' path path' : string) :
  equal_up_to_case d d' = true → equal_up_to_case path path' = true →
  Sqlite.like (dir_param d) path = Sqlite.like (dir_param d') path'.
Proof.
  intros Hd Hp. rewrite (like_path_case _ _ _ Hp).
  by apply like_pattern_case, dir_param_case.
Qed.

Lemma has_wildcard_app (a b : string) :
  has_wildcard (a +:+ b) = has_wildcard a || has_wildcard b.
Proof.
  induction a as [|c a IH]; [done|]. rewrite app_cons. simpl. rewrite IH.
  by rewrite !orb_assoc.
Qed.

Lemma like_literal (p s : string) :
  has_wildcard p = false → Sqlite.like (p +:+ "%") s = startswith_nocase p s.
Proof.
  revert s. induction p as [|c p IH]; intros s Hw.
  - by rewrite like_percent_all.
  - simpl in Hw. apply orb_false_elim in Hw as [Hw Hp].
    apply orb_false_elim in Hw as [Hc Hu]. rewrite app_cons. simpl. rewrite Hc, Hu.
    destruct s as [|x s]; [done|]. by rewrite IH.
Qed.

(** X18. For a selected directory without [%] and [_] in its name the
    scope test is exactly: the path starts, up to the case of the
    letters A-Z, with the directory closed by its separator. *)
Theorem scope_test_is_prefix_test (d path : string) :
  has_wildcard d = false →
  Sqlite.like (dir_param d) path = startswith_nocase (with_separator d) path.
Proof.
  intros Hw. unfold dir_param. apply like_literal.
  unfold with_separator. destruct (endswith_slash d); [done|].
  rewrite has_wildcard_app, Hw. done.
Qed.

Section Containment.
Variable self : SearchQueryEvaluator.

(** X19. No image below a selected directory is missed, whatever
    characters the directory has in its name: when the path of an
    image starts with a selected directory closed by its separator,
    the image is among the items in scope. *)
Theorem below_selected_directory_is_in_scope (i : images_row) (d : string) :
  i ∈ images (db self) → d ∈ selected_directories self →
  startswith (with_separator d) (images_path i) = true →
  images_id i ∈ items_in_scope self.
Proof.
  intros Hi Hd Hs. apply elem_of_items_in_scope. exists i. split; [done|]. split; [done|].
  apply in_scope_by_directory. exists d. split; [done|].
  apply startswith_split in Hs as [t ->]. apply inside_matches.
Qed.

Lemma with_separator_idem (d : string) : with_separator (with_separator d) = with_separator d.
Proof. unfold with_separator at 1. by rewrite with_separator_ends. Qed.

Lemma separators_same_clause (dirs : gset string) (path : string) :
  dir_where_clause (dir_params (set_map with_separator dirs)) path
  = dir_where_clause (dir_params dirs) path.
Proof.
  apply eq_true_iff_eq. rewrite !in_scope_by_directory. split.
  - intros (d & Hd & Hl). apply elem_of_map in Hd as (d0 & -> & Hd0).
    exists d0. split; [done|]. unfold dir_param in *. by rewrite with_separator_idem in Hl.
  - intros (d & Hd & Hl). exists (with_separator d). split.
    + apply elem_of_map. eauto.
    + unfold dir_param in *. by rewrite with_separator_idem.
Qed.

(** X20. A trailing separator on a selected directory changes
    nothing: with every selected directory closed by its separator
    beforehand, every tree has the same set algebra. *)
Theorem trailing_separator_is_irrelevant (dirs : gset string) (node : ASTNode) :
  denote (with_directories self (set_map with_separator dirs)) node
  = denote (with_directories self dirs) node.
Proof.
  assert (HU : items_in_scope (with_directories self (set_map with_separator dirs))
               = items_in_scope (with_directories self dirs)).
  { apply set_eq. intros x. rewrite !elem_of_items_in_scope. simpl.
    by setoid_rewrite separators_same_clause. }
  induction node as [tag| |l IHl r IHr|l IHl r IHr|n IHn|n IHn|ty]; simpl;
    rewrite ?IHl, ?IHr, ?IHn, ?HU; try done.
  apply set_eq. intros x. rewrite !elem_of_items_with_tag. simpl.
  by setoid_rewrite separators_same_clause.
Qed.

End Containment.

(** ** Widening the scope *)

Section Widening.
Variable self : SearchQueryEvaluator.

Lemma wider_clause (dirs1 dirs2 : gset string) (path : string) :
  dirs1 ⊆ dirs2 →
  dir_where_clause (dir_params dirs1) path = true →
  dir_where_clause (dir_params dirs2) path = true.
Proof.
  intros Hsub. rewrite !in_scope_by_directory. intros (d & Hd & Hl). eauto.
Qed.

Lemma wider_items (dirs1 dirs2 : gset string) :
  dirs1 ⊆ dirs2 →
  items_in_scope (with_directories self dirs1) ⊆ items_in_scope (with_directories self dirs2)
  ∧ ∀ tag, items_with_tag (with_directories self dirs1) tag
           ⊆ items_with_tag (with_directories self dirs2) tag.
Proof.
  intros Hsub. split.
  - intros x. rewrite !elem_of_items_in_scope. simpl.
    intros (i & ? & ? & ?). exists i. eauto using wider_clause.
  - intros tag x. rewrite !elem_of_items_with_tag. simpl.
    intros (it & t & i & ? & ? & ? & ? & ? & ? & ? & ?). exists it, t, i.
    repeat split; eauto using wider_clause.
Qed.

(** X21. Without [NotNode] in the tree, selecting more directories
    never removes an item from the set algebra of the tree. *)
Theorem wider_scope_keeps_items (dirs1 dirs2 : gset string) (node : ASTNode) :
  not_free node = true → dirs1 ⊆ dirs2 →
  denote (with_directories self dirs1) node ⊆ denote (with_directories self dirs2) node.
Proof.
  intros Hn Hsub. destruct (wider_items dirs1 dirs2 Hsub) as [HU HT].
  induction node as [tag| |l IHl r IHr|l IHl r IHr|n IHn|n IHn|ty]; simpl in *;
    try done; try (apply andb_prop in Hn as [Hl Hr]; set_solver); auto.
Qed.

End Widening.

(** ** Lookups against the tables *)

Section Tables.
Variable self : SearchQueryEvaluator.

(** X22. Every id [evaluate] returns is the id of a stored image: a
    row of [image_tags] whose image is gone never shows up, whatever
    the tree and whatever the store does. *)
Theorem evaluate_returns_stored_images (node : ASTNode) (w w' : World) (r : gset string) :
  evaluate self node w = (Returned r, w') → r ⊆ all_items (db self).
Proof.
  intros E. etrans; [by eapply evaluate_in_scope|]. apply items_in_scope_all.
Qed.

Lemma elem_of_tagged_ids (tag x : string) :
  x ∈ tagged_ids (db self) tag ↔
  ∃ it t, it ∈ image_tags (db self) ∧ t ∈ tags (db self)
          ∧ it_image_id it = x ∧ it_tag_id it = tags_id t
          ∧ Sqlite.lower (tags_name t) = Sqlite.lower tag.
Proof.
  unfold tagged_ids. rewrite elem_of_list_to_set, list_elem_of_bind. split.
  - intros (it & Hx & Hit). apply list_elem_of_bind in Hx as (t & Hx & Ht).
    destruct (_ && _) eqn:E in Hx; [|by apply not_elem_of_nil in Hx].
    apply list_elem_of_singleton in Hx.
    rewrite andb_true_iff, !bool_decide_eq_true in E. exists it, t. naive_solver.
  - intros (it & t & Hit & Ht & Hx & E1 & E2).
    exists it. split; [|done]. apply list_elem_of_bind. exists t. split; [|done].
    rewrite !bool_decide_eq_true_2 by done. simpl. by apply list_elem_of_singleton.
Qed.

Lemma items_with_tag_meet (tag : string) :
  items_with_tag self tag = tagged_ids (db self) tag ∩ items_in_scope self.
Proof.
  apply set_eq. intros x.
  rewrite elem_of_intersection, elem_of_items_with_tag, elem_of_tagged_ids,
    elem_of_items_in_scope. split.
  - intros (it & t & i & ? & ? & ? & ? & ? & ? & ? & ?). split.
    + exists it, t. auto.
    + exists i. split; [done|]. split; [congruence|done].
  - intros [(it & t & ? & ? & ? & ? & ?) (i & ? & ? & ?)].
    exists it, t, i. repeat split; auto. congruence.
Qed.

(** X23. With a scope, the tag lookup scopes inside its statement
    what [filter_by_directory_scope] would scope afterwards: when both
    accesses answer, [get_image_ids_by_tag] returns what
    [filter_by_directory_scope] returns for the ids the association
    table gives the tag. *)
Theorem tag_lookup_is_filtered_tagging (tag : string) (w w2 : World) :
  selected_directories self ≠ ∅ →
  next_outcome w = Answers → next_outcome w2 = Answers →
  fst (get_image_ids_by_tag self tag w)
  = fst (filter_by_directory_scope self (tagged_ids (db self) tag) w2).
Proof.
  intros Hne Ho Ho2. rewrite by_tag_answers by done. simpl. rewrite items_with_tag_meet.
  destruct (decide (tagged_ids (db self) tag = ∅)) as [He|He].
  - rewrite filter_no_scope by auto. simpl. f_equal. set_solver.
  - by rewrite filter_answers.
Qed.

End Tables.

(** ** The further properties at concrete inputs *)

Lemma evaluate_is_set_algebra_witness :
  fst (evaluate Scenario.ev (AndNode (TagNode "cat") (NotNode (TagNode "dog"))) Scenario.fresh)
  = Returned (denote Scenario.ev (AndNode (TagNode "cat") (NotNode (TagNode "dog")))).
Proof. apply evaluate_is_set_algebra; [reflexivity|apply Forall_nil_2]. Defined.

Lemma and_commutes_witness :
  fst (evaluate Scenario.ev (AndNode (TagNode "bird") (TagNode "cat")) Scenario.fresh)
  = fst (evaluate Scenario.ev (AndNode (TagNode "cat") (TagNode "bird")) Scenario.fresh).
Proof. apply and_commutes; [reflexivity|reflexivity|apply Forall_nil_2]. Defined.

Lemma or_commutes_witness :
  fst (evaluate Scenario.ev (OrNode (TagNode "dog") (TagNode "cat")) Scenario.fresh)
  = fst (evaluate Scenario.ev (OrNode (TagNode "cat") (TagNode "dog")) Scenario.fresh).
Proof. apply or_commutes; [reflexivity|reflexivity|apply Forall_nil_2]. Defined.

Lemma de_morgan_witness :
  fst (evaluate Scenario.ev (NotNode (OrNode (TagNode "cat") (TagNode "dog"))) Scenario.fresh)
  = fst (evaluate Scenario.ev (AndNode (NotNode (TagNode "cat")) (NotNode (TagNode "dog")))
           Scenario.fresh)
  ∧ fst (evaluate Scenario.ev (NotNode (AndNode (TagNode "cat") (TagNode "dog"))) Scenario.fresh)
    = fst (evaluate Scenario.ev (OrNode (NotNode (TagNode "cat")) (NotNode (TagNode "dog")))
             Scenario.fresh).
Proof. apply de_morgan; [reflexivity|reflexivity|apply Forall_nil_2]. Defined.

Lemma complement_laws_witness :
  fst (evaluate Scenario.ev (OrNode (TagNode "cat") (NotNode (TagNode "cat"))) Scenario.fresh)
  = fst (evaluate Scenario.ev AllImagesNode Scenario.fresh)
  ∧ fst (evaluate Scenario.ev (AndNode (TagNode "cat") (NotNode (TagNode "cat"))) Scenario.fresh)
    = Returned ∅.
Proof. apply complement_laws; [reflexivity|apply Forall_nil_2]. Defined.

Lemma failures_only_lose_items_witness :
  ({["2"]} : gset string) ⊆ denote Scenario.ev (OrNode (TagNode "cat") (TagNode "dog")).
Proof.
  apply (failures_only_lose_items Scenario.ev (OrNode (TagNode "cat") (TagNode "dog"))
           Scenario.locked
           (snd (evaluate Scenario.ev (OrNode (TagNode "cat") (TagNode "dog")) Scenario.locked))).
  - reflexivity.
  - vm_compute. reflexivity.
Defined.

Lemma not_under_failure_witness :
  fst (evaluate Scenario.ev (NotNode (TagNode "cat")) Scenario.second_fails)
  = Returned (items_in_scope Scenario.ev).
Proof.
  apply (not_under_failure Scenario.ev "cat" "disk I/O error" Scenario.second_fails).
  - vm_compute. discriminate.
  - reflexivity.
  - reflexivity.
Defined.

Lemma evaluate_is_accounted_witness :
  ∃ qs lines,
    issued (snd (evaluate Scenario.ev (OrNode (TagNode "cat") (TagNode "dog")) Scenario.locked))
    = issued Scenario.locked ++ qs
    ∧ pending (snd (evaluate Scenario.ev (OrNode (TagNode "cat") (TagNode "dog")) Scenario.locked))
      = drop (length qs) (pending Scenario.locked)
    ∧ stdout (snd (evaluate Scenario.ev (OrNode (TagNode "cat") (TagNode "dog")) Scenario.locked))
      = stdout Scenario.locked ++ lines
    ∧ length lines = failures (take (length qs) (pending Scenario.locked)).
Proof.
  apply (evaluate_is_accounted Scenario.ev (OrNode (TagNode "cat") (TagNode "dog"))
           Scenario.locked _
           (fst (evaluate Scenario.ev (OrNode (TagNode "cat") (TagNode "dog")) Scenario.locked))).
  vm_compute. reflexivity.
Defined.

Lemma accesses_bounded_by_tree_witness :
  length (issued (snd (evaluate Scenario.ev
                         (AndNode (TagNode "bird") (NotNode (TagNode "cat"))) Scenario.fresh)))
  ≤ length (issued Scenario.fresh) + lookups (AndNode (TagNode "bird") (NotNode (TagNode "cat"))).
Proof.
  apply (accesses_bounded_by_tree Scenario.ev _ Scenario.fresh _
           (fst (evaluate Scenario.ev
                   (AndNode (TagNode "bird") (NotNode (TagNode "cat"))) Scenario.fresh))).
  vm_compute. reflexivity.
Defined.

Lemma accesses_come_from_tree_witness :
  SelectByTag "cat" ["/a/%"] ∈ issued Scenario.fresh
  ∨ (SelectByTag "cat" ["/a/%"] = SelectAll (dir_params (selected_directories Scenario.ev))
     ∨ ∃ tag, tag ∈ tags_of (NotNode (TagNode "cat"))
              ∧ SelectByTag "cat" ["/a/%"]
                = SelectByTag tag (dir_params (selected_directories Scenario.ev)))
    ∧ length (dir_params (selected_directories Scenario.ev))
      = size (selected_directories Scenario.ev).
Proof.
  apply (accesses_come_from_tree Scenario.ev (NotNode (TagNode "cat")) Scenario.fresh
           (snd (evaluate Scenario.ev (NotNode (TagNode "cat")) Scenario.fresh))
           (fst (evaluate Scenario.ev (NotNode (TagNode "cat")) Scenario.fresh))).
  - vm_compute. reflexivity.
  - vm_compute. right. left.
Defined.

Lemma walk_without_and_is_full_witness :
  (∃ r, fst (evaluate Scenario.ev (OrNode (TagNode "cat") (NotNode (TagNode "dog")))
               Scenario.locked) = Returned r)
  ∧ length (issued (snd (evaluate Scenario.ev (OrNode (TagNode "cat") (NotNode (TagNode "dog")))
                           Scenario.locked)))
    = length (issued Scenario.locked) + lookups (OrNode (TagNode "cat") (NotNode (TagNode "dog"))).
Proof.
  apply (walk_without_and_is_full Scenario.ev).
  - vm_compute. discriminate.
  - reflexivity.
  - reflexivity.
  - vm_compute. reflexivity.
Defined.

Lemma filter_idempotent_witness :
  fst (filter_by_directory_scope Scenario.ev {["1"]} Scenario.fresh) = Returned {["1"]}.
Proof.
  apply (filter_idempotent Scenario.ev {["1"; "3"]} {["1"]} Scenario.fresh
           (snd (filter_by_directory_scope Scenario.ev {["1"; "3"]} Scenario.fresh))
           Scenario.fresh).
  - reflexivity.
  - reflexivity.
  - vm_compute. reflexivity.
Defined.

Lemma filter_after_evaluate_witness :
  fst (filter_by_directory_scope Scenario.ev {["2"]} Scenario.fresh) = Returned {["2"]}.
Proof.
  apply (filter_after_evaluate Scenario.ev (NotNode (TagNode "cat")) {["2"]} Scenario.fresh
           (snd (evaluate Scenario.ev (NotNode (TagNode "cat")) Scenario.fresh))
           Scenario.fresh).
  - vm_compute. reflexivity.
  - reflexivity.
Defined.

Lemma unknown_tag_is_empty_witness :
  fst (evaluate Scenario.ev (TagNode "bird") Scenario.locked) = Returned ∅.
Proof.
  apply unknown_tag_is_empty. intros t Ht. apply list_elem_of_In in Ht. simpl in Ht.
  destruct Ht as [<-|[<-|[]]]; reflexivity.
Defined.

Lemma scope_test_ignores_case_witness :
  Sqlite.like (dir_param "/Photos") "/PHOTOS/x.jpg"
  = Sqlite.like (dir_param "/photos") "/photos/X.JPG".
Proof. apply scope_test_ignores_case; reflexivity. Defined.

Lemma scope_test_is_prefix_test_witness :
  Sqlite.like (dir_param "/a") "/A/x" = startswith_nocase (with_separator "/a") "/A/x".
Proof. apply scope_test_is_prefix_test. reflexivity. Defined.

Lemma below_selected_directory_witness :
  images_id {| images_id := "1"; images_path := "/a/1" |} ∈ items_in_scope Scenario.ev.
Proof.
  apply (below_selected_directory_is_in_scope Scenario.ev _ "/a").
  - simpl. left.
  - vm_compute. reflexivity.
  - reflexivity.
Defined.

Lemma sibling_not_matched_witness : Sqlite.like (dir_param "/a") "/ab/x" = false.
Proof. apply sibling_not_matched; reflexivity. Defined.

Lemma wider_scope_keeps_items_witness :
  denote (with_directories Scenario.ev {["/a"]}) (TagNode "cat")
  ⊆ denote (with_directories Scenario.ev ({["/a"]} ∪ {["/b"]})) (TagNode "cat").
Proof. apply wider_scope_keeps_items; [reflexivity|]. apply union_subseteq_l. Defined.

Lemma evaluate_returns_stored_images_witness :
  ({["2"]} : gset string) ⊆ all_items (db Scenario.ev).
Proof.
  apply (evaluate_returns_stored_images Scenario.ev (NotNode (TagNode "cat")) Scenario.fresh
           (snd (evaluate Scenario.ev (NotNode (TagNode "cat")) Scenario.fresh))).
  vm_compute. reflexivity.
Defined.

Lemma tag_lookup_is_filtered_tagging_witness :
  fst (get_image_ids_by_tag Scenario.ev "cat" Scenario.fresh)
  = fst (filter_by_directory_scope Scenario.ev (tagged_ids (db Scenario.ev) "cat") Scenario.fresh).
Proof.
  apply tag_lookup_is_filtered_tagging.
  - vm_compute. discriminate.
  - reflexivity.
  - reflexivity.
Defined.
